(** * ama: indexing and retrieval pipeline

    A shallow embedding of the Go program [ama] (chunking of HTML documents,
    squared-distance ranking of embedding vectors, index construction, index
    persistence and context packing), together with the properties its
    specification states about it.

    Conventions.
    - A Go [string] is a sequence of bytes: [String.string], whose characters
      are the 256 values of [ascii].  [len(s)] is [String.length s].
    - A Go [int] is a 64-bit two's-complement integer: a [Z] with the
      wrap-around written out ([wrap64]).
    - A Go [float64] is an IEEE 754 binary64 number: [PrimFloat.float], with
      the operations rounded one by one (no fused multiply-add).
    - A Go slice is a [list]; indexing outside it panics.
    - A Go pair (value, error) is a [result]; an [outcome] tells a call that
      returns from one that panics. *)

From Stdlib Require Import List String Ascii Bool Arith ZArith Lia.
From Stdlib Require Import Permutation Sorted.
From Stdlib Require Import Floats.
Import ListNotations.

Local Open Scope string_scope.
Local Open Scope list_scope.

(** ** Regular expressions

    The three patterns of the program are sequences of literals, single
    bracket classes and starred or plussed bracket classes.  Go's [regexp]
    returns the leftmost match and, among those, the one a backtracking
    search finds first; [match_here] is that search.  The patterns are over
    ASCII delimiters, so matching byte by byte agrees with matching rune by
    rune: no byte of a multi-byte UTF-8 sequence is an ASCII byte. *)

Module Regexp.

Inductive item : Type :=
| Lit (c : ascii)                 (* the byte [c] *)
| Class (p : ascii -> bool)       (* one byte of the class *)
| Star (p : ascii -> bool)        (* [p*], greedy *)
| Plus (p : ascii -> bool)        (* [p+], greedy *)
| LazyStar (p : ascii -> bool).   (* [p*?], prefers fewer *)

Definition regexp : Type := list item.

(** [k] matches what follows the star; the star first tries one more byte. *)
Fixpoint star_greedy (p : ascii -> bool) (k : string -> option nat)
         (s : string) : option nat :=
  match s with
  | String a s' =>
      if p a then
        match star_greedy p k s' with
        | Some n => Some (S n)
        | None => k s
        end
      else k s
  | EmptyString => k s
  end.

(** The lazy star first tries to stop. *)
Fixpoint star_lazy (p : ascii -> bool) (k : string -> option nat)
         (s : string) : option nat :=
  match k s with
  | Some n => Some n
  | None =>
      match s with
      | String a s' =>
          if p a then option_map S (star_lazy p k s') else None
      | EmptyString => None
      end
  end.

(** Number of bytes of the match of [r] that starts at the head of [s]. *)
Fixpoint match_here (r : regexp) (s : string) {struct r} : option nat :=
  match r with
  | [] => Some 0
  | Lit c :: r' =>
      match s with
      | String a s' =>
          if Ascii.eqb a c then option_map S (match_here r' s') else None
      | EmptyString => None
      end
  | Class p :: r' =>
      match s with
      | String a s' =>
          if p a then option_map S (match_here r' s') else None
      | EmptyString => None
      end
  | Star p :: r' => star_greedy p (match_here r') s
  | Plus p :: r' =>
      match s with
      | String a s' =>
          if p a then option_map S (star_greedy p (match_here r') s')
          else None
      | EmptyString => None
      end
  | LazyStar p :: r' => star_lazy p (match_here r') s
  end.

(** The walks below go through the subject byte by byte; [skip] counts the
    bytes of the current match that are still to be passed over, so that
    successive matches do not overlap.  None of the program's patterns
    matches the empty string ([match_here_nonempty]); a walk treats an
    empty match like no match. *)

(** [FindAllStringIndex(s, -1)]: the (start, end) offsets of the matches. *)
Fixpoint find_all_from (r : regexp) (s : string) (pos skip : nat)
  : list (nat * nat) :=
  match s with
  | EmptyString => []
  | String _ s' =>
      match skip with
      | S k => find_all_from r s' (S pos) k
      | O =>
          match match_here r s with
          | Some (S n) => (pos, pos + S n) :: find_all_from r s' (S pos) n
          | _ => find_all_from r s' (S pos) 0
          end
      end
  end.

Definition FindAllStringIndex (r : regexp) (s : string) : list (nat * nat) :=
  find_all_from r s 0 0.

(** Puts a byte in front of the first segment. *)
Definition cons_head (a : ascii) (l : list string) : list string :=
  match l with
  | seg :: segs => String a seg :: segs
  | [] => [String a EmptyString]
  end.

Fixpoint split_from (r : regexp) (s : string) (skip : nat) : list string :=
  match s with
  | EmptyString => [EmptyString]
  | String a s' =>
      match skip with
      | S k => split_from r s' k
      | O =>
          match match_here r s with
          | Some (S n) => EmptyString :: split_from r s' n
          | _ => cons_head a (split_from r s' 0)
          end
      end
  end.

(** [Split(s, -1)]: the pieces of [s] between the matches.  On the empty
    subject Go returns one empty piece; after the last match the rest of the
    subject is a piece of its own, also when it is empty (a match of a
    pattern that matches no empty string starts before the end of [s]). *)
Definition Split (r : regexp) (s : string) : list string :=
  split_from r s 0.

Fixpoint replace_from (r : regexp) (repl : string) (s : string) (skip : nat)
  : string :=
  match s with
  | EmptyString => EmptyString
  | String a s' =>
      match skip with
      | S k => replace_from r repl s' k
      | O =>
          match match_here r s with
          | Some (S n) => repl ++ replace_from r repl s' n
          | _ => String a (replace_from r repl s' 0)
          end
      end
  end.

(** [ReplaceAllString(s, repl)] for a replacement without [$]. *)
Definition ReplaceAllString (r : regexp) (s repl : string) : string :=
  replace_from r repl s 0.

(** A literal string as a pattern. *)
Fixpoint lits (s : string) : regexp :=
  match s with
  | EmptyString => []
  | String a s' => Lit a :: lits s'
  end.

End Regexp.

Import Regexp.

(** ** strings.ReplaceAll for a one-byte needle and a one-byte replacement *)

Fixpoint ReplaceAllByte (s : string) (old new : ascii) : string :=
  match s with
  | EmptyString => EmptyString
  | String a s' =>
      String (if Ascii.eqb a old then new else a) (ReplaceAllByte s' old new)
  end.

(** ** Document and Chunker *)

Record Document : Type := mkDocument {
  Title : string;
  Link : string;
  HTML : string
}.

Definition newline : ascii := "010"%char.

(** [[^>]] *)
Definition not_gt (a : ascii) : bool := negb (Ascii.eqb a ">"%char).

(** [[hH]] *)
Definition is_h (a : ascii) : bool :=
  Ascii.eqb a "h"%char || Ascii.eqb a "H"%char.

(** [\d]: the ASCII digits. *)
Definition is_digit (a : ascii) : bool :=
  (48 <=? nat_of_ascii a)%nat && (nat_of_ascii a <=? 57)%nat.

(** [.]: any byte but the newline. *)
Definition dot (a : ascii) : bool := negb (Ascii.eqb a newline).

(** [<[^>]*>] *)
Definition htmlTagPat : regexp :=
  [Lit "<"; Star not_gt; Lit ">"]%char.

(** [<[hH]\d+[^>]*>] *)
Definition htmlHeadersPat : regexp :=
  [Lit "<"; Class is_h; Plus is_digit; Star not_gt; Lit ">"]%char.

(** [<script[^>]*>.*?</script>] *)
Definition htmlScriptPat : regexp :=
  lits "<script" ++ [Star not_gt; Lit ">"%char; LazyStar dot]
       ++ lits "</script>".

(** The markup that is split: newlines replaced, script blocks replaced. *)
Definition markup (d : Document) : string :=
  ReplaceAllString htmlScriptPat (ReplaceAllByte (HTML d) newline " "%char) " ".

(** [Document.Chunks] *)
Definition Chunks (d : Document) : list string :=
  map (fun c => ReplaceAllString htmlTagPat c " ")
      (Split htmlHeadersPat (markup d)).

(** ** Errors, results and panics *)

Inductive error : Type :=
| New (msg : string)                  (* an error of a library or of the OS *)
| Wrap (msg : string) (e : error).    (* [fmt.Errorf("msg: %w", e)] *)

(** A Go pair [(value, error)]. *)
Inductive result (A : Type) : Type :=
| Ok (a : A)
| Err (e : error).
Arguments Ok {A} a.
Arguments Err {A} e.

(** What a call does: it returns, or a run-time panic unwinds it. *)
Inductive outcome (A : Type) : Type :=
| Return (a : A)
| Panic.
Arguments Return {A} a.
Arguments Panic {A}.

(** ** Go's int *)

Definition maxInt : Z := 2 ^ 63 - 1.

Definition wrap64 (z : Z) : Z := (z + 2 ^ 63) mod 2 ^ 64 - 2 ^ 63.

(** [a + b] on [int]. *)
Definition int_add (a b : Z) : Z := wrap64 (a + b).

(** [len(s)] *)
Definition len (s : string) : Z := Z.of_nat (String.length s).

(** [l[i]]: [None] stands for the index-out-of-range panic. *)
Definition index {A : Type} (l : list A) (i : Z) : option A :=
  if (i <? 0)%Z then None else nth_error l (Z.to_nat i).

(** ** Vector and Distance *)

Definition float64 : Type := float.

Definition Vector : Type := list float64.

(** The loop of [Distance]: [i] is the index of the head of [v] in the
    receiver, [sum] the running sum.  [v2[i]] panics past the end of [v2]. *)
Fixpoint Distance_loop (v v2 : Vector) (i : nat) (sum : float64)
  : option float64 :=
  match v with
  | [] => Some sum
  | x :: v' =>
      match nth_error v2 i with
      | None => None
      | Some y => Distance_loop v' v2 (S i) (sum + (x - y) * (x - y))%float
      end
  end.

(** [Vector.Distance]; [None] is the panic. *)
Definition Distance (v v2 : Vector) : option float64 :=
  Distance_loop v v2 0 0%float.

(** ** The index *)

Record ChunkRef : Type := mkChunkRef {
  DocumentID : Z;
  ChunkNumber : Z
}.

(** The field [Vector] of the source is [Vec] here ([Vector] is the type). *)
Record Embedding : Type := mkEmbedding {
  Vec : Vector;
  ChunkID : Z
}.

Record Index : Type := mkIndex {
  Documents : list string;
  Embeddings : list Embedding;
  ChunkRefs : list ChunkRef
}.

(** ** The world outside the program *)

(** [os.Open(path)] followed by [json.NewDecoder(f).Decode(&doc)]. *)
Inductive ReadResult : Type :=
| OpenError (e : error)
| DecodeError (e : error)
| Decoded (doc : Document).

(** What [runIndex] writes with [log.Printf]. *)
Inductive logLine : Type :=
| WarnOpen (path : string) (e : error)
| WarnDecode (path : string) (e : error)
| WarnEmbeddings (path : string) (e : error)
| Indexed (path : string) (nchunks : Z)
| WarnScan (e : error).

Definition maxContextBytes : Z := 4 * 1024.

Definition indexPath : string := "index.json.gz".

Definition nl : string := String newline EmptyString.

Definition dquote : string := String "034"%char EmptyString.

(** [strings.Join] *)
Fixpoint Join (elems : list string) (sep : string) : string :=
  match elems with
  | [] => EmptyString
  | [e] => e
  | e :: rest => e ++ sep ++ Join rest sep
  end.

(** The instruction is a raw string literal: its [\n\n] are two backslashes
    and two letters, not line feeds. *)
Definition instruction : string :=
  "Answer the question as truthfully as possible using the provided text, and if the answer is not contained within the text below, say "
  ++ dquote ++ "I don't know" ++ dquote ++ "\n\n".

Definition makePrompt (chunks : list string) (query : string) : string :=
  instruction
    ++ ("Context: " ++ Join chunks " " ++ nl ++ nl)
    ++ ("Q: " ++ query ++ nl ++ "A:").

(** Everything the program reaches through a library or the operating system.
    [sortSlice less x] is [sort.Slice] on the slice [x]: the slice afterwards
    and whether the sort ran to its end ([false]: a call of [less] panicked).
    The four last fields describe [gzip.NewWriter(f)] under
    [json.NewEncoder]: the bytes each call gets into the file and the error it
    returns; [closeGzip] is given the error the writer is in. *)
Record World : Type := mkWorld {
  openAIAuthToken : string;
  readDocument : string -> ReadResult;
  CreateEmbeddings : list string -> result (list Vector);
  CreateCompletion : string -> result (list string);
  sortSlice : (Embedding -> Embedding -> option bool) ->
              list Embedding -> list Embedding * bool;
  osCreate : string -> option error;
  encodeIndex : Index -> string * option error;
  flushGzip : Index -> string * option error;
  closeGzip : Index -> option error -> string;
  decodeIndex : string -> result Index
}.

(** ** Indexer *)

(** The loop over [resp.Data] (lines 136-145): [i] is the loop index and
    [ndocs] is [len(docs)], which the loop does not change. *)
Fixpoint appendEmbeddings (data : list Vector) (i : Z) (ndocs : Z)
         (embeddings : list Embedding) (chunkRefs : list ChunkRef)
  : list Embedding * list ChunkRef :=
  match data with
  | [] => (embeddings, chunkRefs)
  | emb :: data' =>
      appendEmbeddings data' (i + 1)%Z ndocs
        (embeddings ++ [mkEmbedding emb (Z.of_nat (List.length chunkRefs))])
        (chunkRefs ++ [mkChunkRef ndocs i])
  end.

(** The loop over the scanned lines (lines 107-150), on the three slices
    [docs], [embeddings], [chunkRefs] and the log. *)
Fixpoint indexLoop (w : World) (paths : list string)
         (docs : list string) (embeddings : list Embedding)
         (chunkRefs : list ChunkRef) (log : list logLine)
  : Index * list logLine :=
  match paths with
  | [] => (mkIndex docs embeddings chunkRefs, log)
  | path :: rest =>
      match readDocument w path with
      | OpenError e =>
          indexLoop w rest docs embeddings chunkRefs (log ++ [WarnOpen path e])
      | DecodeError e =>
          indexLoop w rest docs embeddings chunkRefs
                    (log ++ [WarnDecode path e])
      | Decoded doc =>
          let chunks := Chunks doc in
          match CreateEmbeddings w chunks with
          | Err e =>
              indexLoop w rest docs embeddings chunkRefs
                        (log ++ [WarnEmbeddings path e])
          | Ok data =>
              let '(embeddings', chunkRefs') :=
                appendEmbeddings data 0 (Z.of_nat (List.length docs))
                                 embeddings chunkRefs in
              indexLoop w rest (docs ++ [path]) embeddings' chunkRefs'
                        (log ++ [Indexed path (Z.of_nat (List.length chunks))])
          end
      end
  end.

(** The index an indexing run assembles from the lines of its input. *)
Definition buildIndex (w : World) (paths : list string) : Index :=
  fst (indexLoop w paths [] [] [] []).

(** ** Index store *)

(** What the persist step does to the file at [indexPath]. *)
Inductive fileOp : Type :=
| Create                    (* [os.Create]: the file is made empty *)
| Write (bytes : string).   (* bytes are added at the end *)

(** A file is absent ([None]) or has a content. *)
Definition applyOp (file : option string) (op : fileOp) : option string :=
  match op with
  | Create => Some EmptyString
  | Write bytes =>
      match file with
      | Some content => Some (content ++ bytes)%string
      | None => Some bytes
      end
  end.

Definition applyOps (ops : list fileOp) (file : option string)
  : option string :=
  fold_left applyOp ops file.

(** Lines 162-171: the operations on the file, in order, and what
    [runIndex] returns.  The deferred [gz.Close] runs last and its error is
    dropped. *)
Definition storeIndex (w : World) (idx : Index) : list fileOp * result unit :=
  match osCreate w indexPath with
  | Some e => ([], Err e)
  | None =>
      let '(encoded, encodeErr) := encodeIndex w idx in
      match encodeErr with
      | Some e =>
          ([Create; Write encoded; Write (closeGzip w idx (Some e))], Err e)
      | None =>
          let '(flushed, flushErr) := flushGzip w idx in
          ([Create; Write encoded; Write flushed;
            Write (closeGzip w idx flushErr)],
           match flushErr with Some e => Err e | None => Ok tt end)
      end
  end.

(** [runIndex], on the lines scanned from standard input, the error the
    scanner stopped on, and the file at [indexPath].  A process that dies
    after [crash] file operations leaves the file as these made it. *)
Definition runIndex (w : World) (paths : list string) (scanErr : option error)
           (file : option string)
  : option string * list logLine * result unit :=
  if String.eqb (openAIAuthToken w) EmptyString then
    (file, [], Err (New "OPENAI_API_KEY is not set"))
  else
    let '(idx, log) := indexLoop w paths [] [] [] [] in
    let log' := match scanErr with
                | Some e => log ++ [WarnScan e]
                | None => log
                end in
    let '(ops, r) := storeIndex w idx in
    (applyOps ops file, log', r).

(** The file when the process dies after [crash] operations of the persist
    step. *)
Definition crashedStore (w : World) (idx : Index) (crash : nat)
           (file : option string) : option string :=
  applyOps (firstn crash (fst (storeIndex w idx))) file.

(** [loadIndex], on the file at [indexPath]. *)
Definition loadIndex (w : World) (file : option string) : result Index :=
  match file with
  | None => Err (New "open index.json.gz: no such file or directory")
  | Some bytes => decodeIndex w bytes
  end.

(** ** Retriever *)

(** The [less] of [runQuery]: it compares two elements of the slice by their
    distance to the query; it panics when [Distance] does. *)
Definition less (qEmb : Vector) (a b : Embedding) : option bool :=
  match Distance (Vec a) qEmb with
  | None => None
  | Some da =>
      match Distance (Vec b) qEmb with
      | None => None
      | Some db => Some (da <? db)%float
      end
  end.

(** Lines 216-228: the text of the chunk an embedding stands for. *)
Definition chunkContentOf (w : World) (idx : Index) (emb : Embedding)
  : outcome (result string) :=
  match index (ChunkRefs idx) (ChunkID emb) with
  | None => Panic
  | Some chunkRef =>
      match index (Documents idx) (DocumentID chunkRef) with
      | None => Panic
      | Some docPath =>
          match readDocument w docPath with
          | OpenError e => Return (Err e)
          | DecodeError e => Return (Err e)
          | Decoded doc =>
              match index (Chunks doc) (ChunkNumber chunkRef) with
              | None => Panic
              | Some chunkContent => Return (Ok chunkContent)
              end
          end
      end
  end.

(** The loop of lines 215-234 over the sorted slice. *)
Fixpoint packContext (w : World) (idx : Index) (embs : list Embedding)
         (chunks : list string) (contextSize : Z)
  : outcome (result (list string)) :=
  match embs with
  | [] => Return (Ok chunks)
  | emb :: rest =>
      match chunkContentOf w idx emb with
      | Panic => Panic
      | Return (Err e) => Return (Err e)
      | Return (Ok chunkContent) =>
          if (int_add contextSize (len chunkContent) >? maxContextBytes)%Z
          then Return (Ok chunks)
          else packContext w idx rest (chunks ++ [chunkContent])
                           (int_add contextSize (len chunkContent))
      end
  end.

(** Lines 207-234: the sort and the walk.  The first component is the
    index as the caller sees it afterwards: [idx.Embeddings] shares its array
    with the caller's slice, and the sort works in place. *)
Definition retrieve (w : World) (idx : Index) (qEmb : Vector)
  : Index * outcome (result (list string)) :=
  let '(sorted, finished) := sortSlice w (less qEmb) (Embeddings idx) in
  let idx' := mkIndex (Documents idx) sorted (ChunkRefs idx) in
  if finished then (idx', packContext w idx' sorted [] 0)
  else (idx', Panic).

(** [runQuery] *)
Definition runQuery (w : World) (idx : Index) (query : string)
  : Index * outcome (result string) :=
  match CreateEmbeddings w [query] with
  | Err e => (idx, Return (Err (Wrap "failed to get embedding for query" e)))
  | Ok [] => (idx, Panic)
  | Ok (qEmb :: _) =>
      match retrieve w idx qEmb with
      | (idx', Panic) => (idx', Panic)
      | (idx', Return (Err e)) => (idx', Return (Err e))
      | (idx', Return (Ok chunks)) =>
          match CreateCompletion w (makePrompt chunks query) with
          | Err e => (idx', Return (Err (Wrap "completion failed" e)))
          | Ok [] => (idx', Panic)
          | Ok (text :: _) => (idx', Return (Ok text))
          end
      end
  end.

(** ** sort.Slice on short slices

    On a short slice (at most 12 elements since Go 1.19, at most 6 before)
    [sort.Slice] is an insertion sort: each element moves left while it is
    [less] than its left neighbour.  [prefix] is the sorted part, last
    element first; when [less] panics the slice stays as the swaps made so
    far left it. *)

Fixpoint insertLeft (less : Embedding -> Embedding -> option bool)
         (x : Embedding) (prefix : list Embedding) : list Embedding * bool :=
  match prefix with
  | [] => ([x], true)
  | y :: ys =>
      match less x y with
      | None => (x :: y :: ys, false)
      | Some false => (x :: y :: ys, true)
      | Some true =>
          let '(r, finished) := insertLeft less x ys in (y :: r, finished)
      end
  end.

Fixpoint insertionSort_from (less : Embedding -> Embedding -> option bool)
         (prefix rest : list Embedding) : list Embedding * bool :=
  match rest with
  | [] => (rev prefix, true)
  | x :: rest' =>
      let '(prefix', finished) := insertLeft less x prefix in
      if finished then insertionSort_from less prefix' rest'
      else (rev prefix' ++ rest', false)
  end.

Definition insertionSort (less : Embedding -> Embedding -> option bool)
           (x : list Embedding) : list Embedding * bool :=
  insertionSort_from less [] x.

(** ** What the program relies on

    [sort.Slice] only swaps elements, and it sorts when [less] is a strict
    weak ordering of the elements (irreflexive, transitive, and with a
    transitive "neither is less"). *)

Definition StrictWeakOn (less : Embedding -> Embedding -> option bool)
           (l : list Embedding) : Prop :=
  (forall a b, In a l -> In b l -> less a b <> None) /\
  (forall a, In a l -> less a a = Some false) /\
  (forall a b c, In a l -> In b l -> In c l ->
     less a b = Some true -> less b c = Some true -> less a c = Some true) /\
  (forall a b c, In a l -> In b l -> In c l ->
     less a b = Some false -> less b c = Some false -> less a c = Some false).

(** [sort.SliceIsSorted]: no element is less than its left neighbour. *)
Definition SliceIsSorted (less : Embedding -> Embedding -> option bool)
           (l : list Embedding) : Prop :=
  Sorted (fun a b => less b a = Some false) l.

Definition SortPermutes (w : World) : Prop :=
  forall less l, Permutation l (fst (sortSlice w less l)).

Definition SortSorts (w : World) : Prop :=
  forall less l, StrictWeakOn less l ->
    snd (sortSlice w less l) = true /\
    SliceIsSorted less (fst (sortSlice w less l)).

(** ** The two-document corpus of the specification *)

Module Corpus.

Definition docA : Document := mkDocument "A" "" "<h1>Intro</h1>hello world".
Definition docB : Document := mkDocument "B" "" "no headings here".

Definition files (path : string) : ReadResult :=
  if String.eqb path "A" then Decoded docA
  else if String.eqb path "B" then Decoded docB
  else if String.eqb path "broken" then DecodeError (New "unexpected end of JSON input")
  else OpenError (New "no such file or directory").

(** The stub provider: [[1,0]] for a chunk of A, [[0,1]] for the chunk of B
    and for every other text. *)
Definition embed (text : string) : Vector :=
  if String.eqb text "" then [1; 0]%float
  else if String.eqb text "Intro hello world" then [1; 0]%float
  else [0; 1]%float.

Definition world : World :=
  mkWorld "key" files
          (fun texts => Ok (map embed texts))
          (fun prompt => Ok ["I don't know"])
          insertionSort
          (fun _ => None)
          (fun _ => ("index", None))
          (fun _ => ("", None))
          (fun _ _ => "")
          (fun _ => Err (New "gzip: invalid header")).

Definition idx : Index := buildIndex world ["A"; "B"].

(** A third document, of one chunk that is one byte over the budget. *)
Fixpoint replicate (n : nat) (a : ascii) : string :=
  match n with
  | O => EmptyString
  | S n' => String a (replicate n' a)
  end.

Definition docC : Document := mkDocument "C" "" (replicate 4097 "x").

Definition files' (path : string) : ReadResult :=
  if String.eqb path "C" then Decoded docC else files path.

Definition world' : World :=
  mkWorld "key" files'
          (fun texts => Ok (map embed texts))
          (fun prompt => Ok ["I don't know"])
          insertionSort
          (fun _ => None)
          (fun _ => ("index", None))
          (fun _ => ("", None))
          (fun _ _ => "")
          (fun _ => Err (New "gzip: invalid header")).

(** A previously stored index file, which [fullDevice] below can load. *)
Definition previous : string := "previous index".

(** The same world with a device that is full: the first write of the
    encoder fails, nothing gets into the file, and the writer, being in
    error, writes nothing when it is closed. *)
Definition fullDevice : World :=
  mkWorld "key" files
          (fun texts => Ok (map embed texts))
          (fun prompt => Ok ["I don't know"])
          insertionSort
          (fun _ => None)
          (fun _ => ("", Some (New "write index.json.gz: no space left on device")))
          (fun _ => ("", None))
          (fun _ _ => "")
          (fun bytes => if String.eqb bytes previous then Ok idx
                        else Err (New "EOF")).

End Corpus.

(** *** Headings of the raw HTML and of the markup

    Taking out script blocks and newlines puts spaces in, so it makes no
    heading tag that the HTML did not have. *)

Fixpoint contains_gt (s : string) : bool :=
  match s with
  | EmptyString => false
  | String a s' => Ascii.eqb a ">"%char || contains_gt s'
  end.



Definition is_some {A : Type} (o : option A) : bool :=
  match o with Some _ => true | None => false end.

(** ** The distance the specification describes

    The sum of the squared differences of the components at the same place,
    added from the first place on. *)
Definition sumSquaredDiff (a b : Vector) : float64 :=
  fold_left (fun sum xy => (sum + (fst xy - snd xy) * (fst xy - snd xy))%float)
            (combine a b) 0%float.

(** ** Ordered floats

    Every binary64 number but NaN takes part in the order. *)
Definition ordered (f : spec_float) : Prop :=
  match f with S754_nan => False | _ => True end.

(** Every embedding of the slice has a distance to the query, and none of
    these is NaN. *)
Definition DistancesOrdered (qEmb : Vector) (embs : list Embedding) : Prop :=
  forall e, In e embs ->
    exists d, Distance (Vec e) qEmb = Some d /\ is_nan d = false.

(** The distance of [a] to the query is at most that of [b]. *)
Definition distLe (qEmb : Vector) (a b : Embedding) : Prop :=
  exists da db,
    Distance (Vec a) qEmb = Some da /\ Distance (Vec b) qEmb = Some db
    /\ (da <=? db)%float = true.

(** What the two slices of embeddings and chunk references satisfy all along
    an indexing run. *)
Definition Aligned (embs : list Embedding) (refs : list ChunkRef) : Prop :=
  List.length embs = List.length refs
  /\ forall i e, nth_error embs i = Some e -> ChunkID e = Z.of_nat i.

(** A line that cannot be opened or decoded. *)
Definition Unreadable (w : World) (path : string) : Prop :=
  (exists e, readDocument w path = OpenError e)
  \/ (exists e, readDocument w path = DecodeError e).

(** The bytes of a list of chunks. *)
Definition totalLen (chunks : list string) : Z :=
  fold_right (fun c n => (len c + n)%Z) 0%Z chunks.

(** No chunk of a readable document is so long that adding its length to a
    context size within the budget leaves the range of [int]. *)
Definition ChunksFit (w : World) : Prop :=
  forall path doc c,
    readDocument w path = Decoded doc -> In c (Chunks doc) ->
    (len c <= maxInt - maxContextBytes)%Z.

(** In the sorted part of a slice, read from its right end: an element is
    not less than the one to its left. *)
Definition notLessThan (less : Embedding -> Embedding -> option bool)
           (a b : Embedding) : Prop :=
  less a b = Some false.

(** A binary64 number that is neither NaN nor an infinity. *)
Definition finiteSF (f : spec_float) : Prop :=
  match f with S754_zero _ | S754_finite _ _ _ => True | _ => False end.

(** A zero, a positive number or the positive infinity. *)
Definition nonnegSF (f : spec_float) : Prop :=
  match f with
  | S754_zero _ | S754_finite false _ _ | S754_infinity false => True
  | _ => False
  end.

(** Vectors as JSON gives them (every component finite), the embeddings
    being no longer than the query. *)
Definition finiteVector (v : Vector) : Prop :=
  Forall (fun x => is_finite x = true) v.

Definition FiniteVectors (qEmb : Vector) (embs : list Embedding) : Prop :=
  finiteVector qEmb
  /\ forall e, In e embs ->
       (List.length (Vec e) <= List.length qEmb)%nat /\ finiteVector (Vec e).

(** ** The earlier indexer and command line (src/unnamed/part_000)

    In this version of the program a document that cannot be opened, decoded
    or embedded ends the run with its error (src/main.go has the same loop),
    and the command line takes the three closest chunks whatever their
    size. *)

Module Part000.

(** The loop over the scanned lines (lines 99-139): every failure
    returns. *)
Fixpoint indexLoop (w : World) (paths : list string)
         (docs : list string) (embeddings : list Embedding)
         (chunkRefs : list ChunkRef) (log : list logLine)
  : result Index * list logLine :=
  match paths with
  | [] => (Ok (mkIndex docs embeddings chunkRefs), log)
  | path :: rest =>
      match readDocument w path with
      | OpenError e => (Err e, log)
      | DecodeError e => (Err e, log)
      | Decoded doc =>
          let chunks := Chunks doc in
          match CreateEmbeddings w chunks with
          | Err e => (Err e, log)
          | Ok data =>
              let '(embeddings', chunkRefs') :=
                appendEmbeddings data 0 (Z.of_nat (List.length docs))
                                 embeddings chunkRefs in
              indexLoop w rest (docs ++ [path]) embeddings' chunkRefs'
                        (log ++ [Indexed path (Z.of_nat (List.length chunks))])
          end
      end
  end.

(** [runIndex] of part_000; the persist step (lines 146-160) is the one of
    the later version. *)
Definition runIndex (w : World) (paths : list string) (scanErr : option error)
           (file : option string)
  : option string * list logLine * result unit :=
  if String.eqb (openAIAuthToken w) EmptyString then
    (file, [], Err (New "OPENAI_API_KEY is not set"))
  else
    match indexLoop w paths [] [] [] [] with
    | (Err e, log) => (file, log, Err e)
    | (Ok idx, log) =>
        let log' := match scanErr with
                    | Some e => log ++ [WarnScan e]
                    | None => log
                    end in
        let '(ops, r) := storeIndex w idx in
        (applyOps ops file, log', r)
    end.

(** The loop [for i := 0; i < 3; i++] of [runCLI] (lines 219-234):
    [remaining] is [3 - i].  [idx.Embeddings[i]] panics past the end of the
    slice. *)
Fixpoint takeChunks (w : World) (idx : Index) (i remaining : nat)
         (chunks : list string) : outcome (result (list string)) :=
  match remaining with
  | O => Return (Ok chunks)
  | S remaining' =>
      match nth_error (Embeddings idx) i with
      | None => Panic
      | Some emb =>
          match chunkContentOf w idx emb with
          | Panic => Panic
          | Return (Err e) => Return (Err e)
          | Return (Ok chunkContent) =>
              takeChunks w idx (S i) remaining' (chunks ++ [chunkContent])
          end
      end
  end.

(** [runCLI] of part_000, on the file at [indexPath]: what it prints and
    what it returns. *)
Definition runCLI (w : World) (file : option string) (query : string)
  : list string * outcome (result unit) :=
  match loadIndex w file with
  | Err e => ([], Return (Err (Wrap "failed to load index" e)))
  | Ok idx =>
      match CreateEmbeddings w [query] with
      | Err e =>
          ([], Return (Err (Wrap "failed to get embedding for query" e)))
      | Ok [] => ([], Panic)
      | Ok (qEmb :: _) =>
          let '(sorted, finished) := sortSlice w (less qEmb) (Embeddings idx) in
          let idx' := mkIndex (Documents idx) sorted (ChunkRefs idx) in
          if finished then
            match takeChunks w idx' 0 3 [] with
            | Panic => ([], Panic)
            | Return (Err e) => ([], Return (Err e))
            | Return (Ok chunks) =>
                match CreateCompletion w (makePrompt chunks query) with
                | Err e => ([], Return (Err (Wrap "completion failed" e)))
                | Ok [] => ([], Panic)
                | Ok (text :: _) =>
                    ([("Answer: " ++ text ++ nl)%string], Return (Ok tt))
                end
            end
          else ([], Panic)
      end
  end.

End Part000.

(** ** The command line and the server (src/unnamed/part_001) *)

(** [runCLI]: what it prints with [fmt.Println] and what it returns. *)
Definition runCLI (w : World) (file : option string) (query : string)
  : list string * outcome (result unit) :=
  match loadIndex w file with
  | Err e => ([], Return (Err (Wrap "failed to load index" e)))
  | Ok idx =>
      match snd (runQuery w idx query) with
      | Panic => ([], Panic)
      | Return (Err e) => ([], Return (Err (Wrap "failed to run query" e)))
      | Return (Ok answer) => ([(answer ++ nl)%string], Return (Ok tt))
      end
  end.

(** What the handler reads of a request: [r.URL.Path], [r.Method] and
    [strings.TrimSpace(r.FormValue("q"))]. *)
Record Request : Type := mkRequest {
  URLPath : string;
  Method : string;
  Question : string
}.

(** The map [m] handed to the template: a Go [map[string]string]. *)
Definition Fields : Type := list (string * string).

(** [m[key]], the empty string for a missing key. *)
Fixpoint mapGet (m : Fields) (key : string) : string :=
  match m with
  | [] => EmptyString
  | (k, v) :: m' => if String.eqb k key then v else mapGet m' key
  end.

Definition mapHas (m : Fields) (key : string) : bool :=
  existsb (fun kv => String.eqb (fst kv) key) m.

(** [m[key] = value] *)
Fixpoint mapSet (m : Fields) (key value : string) : Fields :=
  match m with
  | [] => [(key, value)]
  | (k, v) :: m' =>
      if String.eqb k key then (k, value) :: m'
      else (k, v) :: mapSet m' key value
  end.

(** What the handler does to the response writer. *)
Inductive Response : Type :=
| NotFound            (* [http.NotFound(w, r)] *)
| MethodNotAllowed    (* [http.Error(w, "method not allowed", 405)] *)
| Page (m : Fields).  (* the header is added and [tpl.Execute(w, m)] runs *)

Definition apology : string :=
  "Sorry, can't answer this right now - try again later.".

(** The handler of [runServer] (lines 288-321) on the index [idx] it
    closes over: the index afterwards, the error it logs, and what it
    answers (a panic ends the request). *)
Definition handle (w : World) (topic : string) (idx : Index) (r : Request)
  : Index * option error * outcome Response :=
  if negb (String.eqb (URLPath r) "/") then (idx, None, Return NotFound)
  else
    let m : Fields := [("Topic", topic); ("Question", Question r)] in
    if String.eqb (Method r) "GET" then (idx, None, Return (Page m))
    else if String.eqb (Method r) "POST" then
      let query := mapGet m "Question" in
      if negb (String.eqb query "") then
        match runQuery w idx query with
        | (idx', Panic) => (idx', None, Panic)
        | (idx', Return (Err e)) =>
            (idx', Some e, Return (Page (mapSet m "Error" apology)))
        | (idx', Return (Ok answer)) =>
            (idx', None, Return (Page (mapSet m "Answer" answer)))
        end
      else (idx, None, Return (Page m))
    else (idx, None, Return MethodNotAllowed).

(** The requests of a server one after the other ([net/http] recovers a
    handler's panic and goes on serving): the index in the end and the
    answers. *)
Fixpoint serve (w : World) (topic : string) (idx : Index)
         (requests : list Request) : Index * list (outcome Response) :=
  match requests with
  | [] => (idx, [])
  | r :: rest =>
      let '(idx', _, answer) := handle w topic idx r in
      let '(idx'', answers) := serve w topic idx' rest in
      (idx'', answer :: answers)
  end.

(** [runServer], on the file at [indexPath] and the requests that come in. *)
Definition runServer (w : World) (topic : string) (file : option string)
           (requests : list Request) : result (list (outcome Response)) :=
  match loadIndex w file with
  | Err e => Err (Wrap "failed to load index" e)
  | Ok idx => Ok (snd (serve w topic idx requests))
  end.

(** ** What a chunk is made of *)

(** The byte [a] occurs in [s]. *)
Fixpoint has_byte (a : ascii) (s : string) : bool :=
  match s with
  | EmptyString => false
  | String b s' => Ascii.eqb b a || has_byte a s'
  end.

(** A tag starts at the head of [s]: a [<] with a [>] somewhere after it. *)
Definition tag_here (s : string) : bool :=
  match s with
  | String a rest => Ascii.eqb a "<"%char && contains_gt rest
  | EmptyString => false
  end.

Fixpoint any_tag (s : string) : bool :=
  match s with
  | EmptyString => false
  | String _ s' => tag_here s || any_tag s'
  end.

(** The bytes of a list of strings, as a natural number. *)
Definition sumLengths (l : list string) : nat :=
  fold_right (fun c n => (String.length c + n)%nat) 0%nat l.

(** ** The index in one piece *)

(** The vectors the provider returns for the document at [path], if the
    document can be opened, decoded and embedded. *)
Definition embeddingsOf (w : World) (path : string) : option (list Vector) :=
  match readDocument w path with
  | Decoded doc =>
      match CreateEmbeddings w (Chunks doc) with
      | Ok data => Some data
      | Err _ => None
      end
  | _ => None
  end.

(** The replies for the paths that can be indexed, in the order of the
    paths. *)
Fixpoint replies (w : World) (paths : list string) : list (list Vector) :=
  match paths with
  | [] => []
  | path :: rest =>
      match embeddingsOf w path with
      | Some data => data :: replies w rest
      | None => replies w rest
      end
  end.

(** One chunk reference per vector of a reply: the document's number and the
    place of the vector in the reply. *)
Definition refsOf (doc : nat) (data : list Vector) : list ChunkRef :=
  map (fun i => mkChunkRef (Z.of_nat doc) (Z.of_nat i))
      (seq 0 (List.length data)).

Fixpoint refsFrom (doc : nat) (rs : list (list Vector)) : list ChunkRef :=
  match rs with
  | [] => []
  | data :: rest => refsOf doc data ++ refsFrom (S doc) rest
  end.

(** The provider returns no more vectors than it was given texts. *)
Definition ProviderAnswersChunks (w : World) : Prop :=
  forall texts data,
    CreateEmbeddings w texts = Ok data ->
    (List.length data <= List.length texts)%nat.

(** Every chunk reference leads to a document that can be read and,
    through the provider's reply for it, to the vector of the embedding at
    the reference's own position. *)
Definition Resolvable (w : World) (docs : list string)
           (embs : list Embedding) (refs : list ChunkRef) : Prop :=
  forall j ref,
    nth_error refs j = Some ref ->
    exists path doc data (k : nat) e,
      index docs (DocumentID ref) = Some path
      /\ readDocument w path = Decoded doc
      /\ CreateEmbeddings w (Chunks doc) = Ok data
      /\ ChunkNumber ref = Z.of_nat k
      /\ nth_error data k = Some (Vec e)
      /\ nth_error embs j = Some e.

(** ** More worlds on the two-document corpus *)

Module Scenes.

(** A provider that embeds one text at a time and refuses longer lists. *)
Definition rateLimited : World :=
  mkWorld "key" Corpus.files
          (fun texts => match texts with
                        | [_] => Ok (map Corpus.embed texts)
                        | _ => Err (New "rate limit")
                        end)
          (fun prompt => Ok ["I don't know"])
          insertionSort
          (fun _ => None)
          (fun _ => ("index", None))
          (fun _ => ("", None))
          (fun _ _ => "")
          (fun _ => Err (New "gzip: invalid header")).

End Scenes.

(** The index after a request, against the one before: the same documents
    and chunk references, the embeddings in another order. *)
Definition SameUpToRanking (idx idx' : Index) : Prop :=
  Documents idx' = Documents idx
  /\ ChunkRefs idx' = ChunkRefs idx
  /\ Permutation (Embeddings idx) (Embeddings idx').


(** * Properties *)

(** ** Chunker *)

Section SplitFacts.

Variable r : regexp.


Lemma split_from_nonempty s skip : split_from r s skip <> [].
Proof.
  revert skip; induction s as [|a s IH]; intros skip; simpl.
  - discriminate.
  - destruct skip as [|k]; [|apply IH].
    destruct (match_here r (String a s)) as [[|n]|];
      try discriminate;
      (destruct (split_from r s 0) eqn:E; [exact (False_ind _ (IH 0%nat E)) | discriminate]).
Qed.



End SplitFacts.

Lemma is_some_option_map {A B : Type} (f : A -> B) o :
  is_some (option_map f o) = is_some o.
Proof. destruct o; reflexivity. Qed.

Lemma close_tag_matches s :
  is_some (star_greedy not_gt (match_here [Lit ">"%char]) s) = contains_gt s.
Proof.
  induction s as [|a s IH]; simpl; [reflexivity|].
  unfold not_gt at 1. destruct (Ascii.eqb a ">"); simpl; [reflexivity|].
  destruct (star_greedy not_gt _ s); simpl in *; congruence.
Qed.





Section ReplaceBySpace.

Variable r : regexp.


Lemma contains_gt_replace_from s skip :
  contains_gt (replace_from r " " s skip) = true -> contains_gt s = true.
Proof.
  revert skip; induction s as [|a s IH]; intros skip; simpl; [auto|].
  destruct skip as [|k].
  - destruct (match_here r (String a s)) as [[|n]|]; simpl; intros H;
      try (apply orb_true_iff in H as [H|H];
           [rewrite H; reflexivity | rewrite (IH _ H); apply orb_true_r]).
    rewrite (IH _ H); apply orb_true_r.
  - intros H; rewrite (IH _ H); apply orb_true_r.
Qed.



End ReplaceBySpace.





(** C1, as stated: the two chunk lists of the scenario.  The second chunk of
    doc A is not [" hello world"]. *)
Lemma C1_chunks_docA_counterexample :
  Chunks Corpus.docA <> [""; " hello world"]
  /\ HTML Corpus.docA = "<h1>Intro</h1>hello world".
Proof. split; [vm_compute; discriminate | reflexivity]. Qed.

(** C1, amended: chunking the document with HTML
    ["<h1>Intro</h1>hello world"] yields [""] and then ["Intro hello world"]
    (only the tags are taken out; the text of the heading stays at the head of
    the chunk that follows the heading's opening tag), and chunking the
    document with HTML ["no headings here"] yields that one text. *)
Theorem C1_chunks_scenario :
  forall title link,
    Chunks (mkDocument title link "<h1>Intro</h1>hello world")
    = [""; "Intro hello world"]
    /\ Chunks (mkDocument title link "no headings here")
       = ["no headings here"].
Proof. intros; split; reflexivity. Qed.



Lemma match_here_nonempty (s : string) :
  match_here htmlTagPat s <> Some 0%nat
  /\ match_here htmlHeadersPat s <> Some 0%nat
  /\ match_here htmlScriptPat s <> Some 0%nat.
Proof.
  repeat split; destruct s as [|a s]; simpl; try discriminate;
    destruct (Ascii.eqb a "<"); try discriminate;
    match goal with |- option_map S ?o <> _ => destruct o; discriminate end.
Qed.

(** ** Vector / Distance *)

Lemma Distance_loop_spec (v : Vector) :
  forall (before after : Vector) (sum : float64),
    Distance_loop v (before ++ after) (List.length before) sum
    = if (List.length v <=? List.length after)%nat
      then Some (fold_left
                   (fun sum xy =>
                      (sum + (fst xy - snd xy) * (fst xy - snd xy))%float)
                   (combine v after) sum)
      else None.
Proof.
  induction v as [|x v IH]; intros before after sum; [reflexivity|].
  cbn [Distance_loop]. rewrite nth_error_app2, Nat.sub_diag by lia.
  destruct after as [|y after]; [reflexivity|].
  cbn [nth_error combine fold_left List.length].
  replace (before ++ y :: after) with ((before ++ [y]) ++ after)
    by (rewrite <- app_assoc; reflexivity).
  replace (S (List.length before)) with (List.length (before ++ [y]))
    by (rewrite length_app; simpl; lia).
  rewrite IH. reflexivity.
Qed.

(** C3, as stated: a receiver shorter than the argument gets a distance over
    the receiver's length and no failure. *)
Lemma C3_distance_truncates_counterexample :
  List.length [1%float] <> List.length [1%float; 5%float]
  /\ Distance [1%float] [1%float; 5%float] = Some 0%float.
Proof. split; [discriminate | reflexivity]. Qed.

(** C3, amended: [distance(a, b)] fails (an index-out-of-range panic) exactly
    when [a] is longer than [b]; when [a] is not longer than [b] it returns
    the sum of the squared differences of the first [len(a)] components, so
    for [len(a) == len(b)] the sum of the squared component-wise
    differences; a longer [b] is cut to the length of [a] without any
    failure. *)
Theorem C3_distance_spec :
  forall a b : Vector,
    ((List.length b < List.length a)%nat -> Distance a b = None)
    /\ ((List.length a <= List.length b)%nat ->
        Distance a b = Some (sumSquaredDiff a (firstn (List.length a) b)))
    /\ (List.length a = List.length b ->
        Distance a b = Some (sumSquaredDiff a b)).
Proof.
  intros a b.
  assert (H : Distance a b
              = if (List.length a <=? List.length b)%nat
                then Some (sumSquaredDiff a b) else None)
    by exact (Distance_loop_spec a [] b 0%float).
  repeat split; intros Hl; rewrite H.
  - destruct (Nat.leb_spec (List.length a) (List.length b)); [lia | reflexivity].
  - destruct (Nat.leb_spec (List.length a) (List.length b)); [|lia].
    unfold sumSquaredDiff. rewrite combine_firstn_l. reflexivity.
  - rewrite Hl, Nat.leb_refl. reflexivity.
Qed.

Lemma C3_distance_spec_witness :
  (List.length [2%float] < List.length [1%float; 5%float])%nat
  /\ Distance [1%float; 5%float] [2%float] = None
  /\ Distance [1%float; 5%float] [2%float; 3%float] = Some 5%float.
Proof.
  split; [simpl; lia|]. split.
  - apply (proj1 (C3_distance_spec [1%float; 5%float] [2%float])).
    simpl; lia.
  - apply (proj2 (proj2 (C3_distance_spec [1%float; 5%float]
                                           [2%float; 3%float]))).
    reflexivity.
Defined.

(** ** Indexer *)

Section IndexerFacts.

Variable w : World.

(** The log does not steer the loop. *)
Lemma indexLoop_log_irrelevant paths :
  forall docs embs refs log1 log2,
    fst (indexLoop w paths docs embs refs log1)
    = fst (indexLoop w paths docs embs refs log2).
Proof.
  induction paths as [|path rest IH]; intros; simpl; [reflexivity|].
  destruct (readDocument w path); auto.
  destruct (CreateEmbeddings w (Chunks doc)); auto.
  destruct (appendEmbeddings _ _ _ _ _); auto.
Qed.

(** The loop over a list of lines is the loop over its first part, then the
    loop over the rest. *)
Lemma indexLoop_app before after :
  forall docs embs refs log,
    indexLoop w (before ++ after) docs embs refs log
    = let '(idx, log') := indexLoop w before docs embs refs log in
      indexLoop w after (Documents idx) (Embeddings idx) (ChunkRefs idx) log'.
Proof.
  induction before as [|path rest IH]; intros; simpl; [reflexivity|].
  destruct (readDocument w path); auto.
  destruct (CreateEmbeddings w (Chunks doc)); auto.
  destruct (appendEmbeddings _ _ _ _ _); auto.
Qed.

Lemma Aligned_nil : Aligned [] [].
Proof. split; [reflexivity | intros [|i] e; discriminate]. Qed.

Lemma appendEmbeddings_Aligned data :
  forall i ndocs embs refs,
    Aligned embs refs ->
    Aligned (fst (appendEmbeddings data i ndocs embs refs))
            (snd (appendEmbeddings data i ndocs embs refs)).
Proof.
  induction data as [|emb data IH]; intros i ndocs embs refs [Hlen Hid];
    simpl; [split; assumption|].
  apply IH. split.
  - rewrite !length_app; simpl; lia.
  - intros j e Hj.
    destruct (Nat.lt_ge_cases j (List.length embs)) as [Hlt|Hge].
    + rewrite nth_error_app1 in Hj by assumption. apply Hid, Hj.
    + rewrite nth_error_app2 in Hj by assumption.
      destruct (j - List.length embs)%nat as [|k] eqn:E; simpl in Hj.
      * injection Hj as <-; simpl. f_equal; lia.
      * destruct k; discriminate.
Qed.

Lemma indexLoop_Aligned paths :
  forall docs embs refs log,
    Aligned embs refs ->
    Aligned (Embeddings (fst (indexLoop w paths docs embs refs log)))
            (ChunkRefs (fst (indexLoop w paths docs embs refs log))).
Proof.
  induction paths as [|path rest IH]; intros docs embs refs log HA; simpl;
    [assumption|].
  destruct (readDocument w path); auto.
  destruct (CreateEmbeddings w (Chunks doc)) as [data|]; auto.
  pose proof (appendEmbeddings_Aligned data 0 (Z.of_nat (List.length docs))
                                       embs refs HA) as HA'.
  destruct (appendEmbeddings _ _ _ _ _); auto.
Qed.

End IndexerFacts.

(** C7: a path whose file fails to open or to decode is skipped with a
    warning: the three slices are as before it, the loop goes on with the
    paths after it, and the run stores the same index, with the same
    result, as a run without that path. *)
Theorem C7_skip_unreadable :
  forall (w : World) (before after : list string) (path : string),
    Unreadable w path ->
    (forall docs embs refs log,
        exists warning,
          indexLoop w (path :: after) docs embs refs log
          = indexLoop w after docs embs refs (log ++ [warning])
          /\ exists e, warning = WarnOpen path e \/ warning = WarnDecode path e)
    /\ buildIndex w (before ++ path :: after) = buildIndex w (before ++ after)
    /\ (forall scanErr file,
           fst (fst (runIndex w (before ++ path :: after) scanErr file))
           = fst (fst (runIndex w (before ++ after) scanErr file))
           /\ snd (runIndex w (before ++ path :: after) scanErr file)
              = snd (runIndex w (before ++ after) scanErr file)).
Proof.
  intros w before after path Hu.
  assert (Hstep : forall docs embs refs log,
             exists warning,
               indexLoop w (path :: after) docs embs refs log
               = indexLoop w after docs embs refs (log ++ [warning])
               /\ exists e, warning = WarnOpen path e
                            \/ warning = WarnDecode path e).
  { intros; simpl. destruct Hu as [[e He]|[e He]]; rewrite He; eauto. }
  assert (Hbuild : forall log,
             fst (indexLoop w (before ++ path :: after) [] [] [] log)
             = fst (indexLoop w (before ++ after) [] [] [] log)).
  { intros log. rewrite !indexLoop_app.
    destruct (indexLoop w before [] [] [] log) as [i lg].
    destruct (Hstep (Documents i) (Embeddings i) (ChunkRefs i) lg)
      as (warning & -> & _).
    apply indexLoop_log_irrelevant. }
  split; [exact Hstep|]. split; [apply Hbuild|].
  intros scanErr file. unfold runIndex.
  destruct (String.eqb (openAIAuthToken w) ""); [split; reflexivity|].
  specialize (Hbuild []).
  destruct (indexLoop w (before ++ path :: after) [] [] [] []) as [i1 l1].
  destruct (indexLoop w (before ++ after) [] [] [] []) as [i2 l2].
  simpl in Hbuild; subst i2.
  destruct (storeIndex w i1); split; reflexivity.
Qed.

Lemma C7_skip_unreadable_witness :
  Unreadable Corpus.world "broken"
  /\ buildIndex Corpus.world (["A"] ++ "broken" :: ["B"]) = Corpus.idx.
Proof.
  assert (H : Unreadable Corpus.world "broken")
    by (right; eexists; reflexivity).
  split; [exact H|].
  exact (proj1 (proj2 (C7_skip_unreadable Corpus.world ["A"] ["B"] "broken" H))).
Defined.

(** C10: in the index an indexing run builds there are as many embeddings as
    chunk references, and the embedding at position [i] has chunkID [i]; so
    the chunk reference its chunkID selects is the one at its own
    position. *)
Theorem C10_chunkID_is_position :
  forall (w : World) (paths : list string),
    let idx := buildIndex w paths in
    List.length (Embeddings idx) = List.length (ChunkRefs idx)
    /\ (forall i e, nth_error (Embeddings idx) i = Some e ->
                    ChunkID e = Z.of_nat i)
    /\ (forall i e, nth_error (Embeddings idx) i = Some e ->
                    index (ChunkRefs idx) (ChunkID e)
                    = nth_error (ChunkRefs idx) i).
Proof.
  intros w paths idx.
  destruct (indexLoop_Aligned w paths [] [] [] [] Aligned_nil) as [Hlen Hid].
  fold (buildIndex w paths) in Hlen, Hid. fold idx in Hlen, Hid.
  repeat split; auto.
  intros i e He. rewrite (Hid i e He). unfold index.
  destruct (Z.ltb_spec (Z.of_nat i) 0); [lia|].
  rewrite Nat2Z.id. reflexivity.
Qed.

(** ** The order of float64 *)

Section SpecOrder.

Ltac cmp_cases :=
  repeat match goal with
  | |- context [Z.compare ?a ?b] => destruct (Z.compare_spec a b)
  | H : context [Z.compare ?a ?b] |- _ => destruct (Z.compare_spec a b)
  | |- context [Pos.compare ?a ?b] => destruct (Pos.compare_spec a b)
  | H : context [Pos.compare ?a ?b] |- _ => destruct (Pos.compare_spec a b)
  end; simpl in *; subst; try reflexivity; try discriminate; try lia.

Ltac by_cases :=
  intros;
  repeat match goal with
  | f : spec_float |- _ => destruct f as [[]|[]| |[] ? ?]
  end;
  repeat match goal with H : _ |- _ => revert H end;
  unfold SFltb, SFleb, SFcompare; simpl; intros;
  try reflexivity; try discriminate; try contradiction;
  change (Pos.compare_cont Eq) with Pos.compare in *; cmp_cases.

Lemma SFltb_irrefl a : SFltb a a = false.
Proof.
  destruct a as [[]|[]| |[] m e]; unfold SFltb, SFcompare; try reflexivity;
  rewrite Z.compare_refl; change (Pos.compare_cont Eq) with Pos.compare;
  rewrite Pos.compare_refl; reflexivity.
Qed.

Lemma SFltb_trans a b c :
  SFltb a b = true -> SFltb b c = true -> SFltb a c = true.
Proof. by_cases. Qed.

Lemma SFltb_false_trans a b c : ordered b ->
  SFltb a b = false -> SFltb b c = false -> SFltb a c = false.
Proof. by_cases. Qed.

Lemma SFleb_of_not_ltb a b : ordered a -> ordered b ->
  SFltb b a = false -> SFleb a b = true.
Proof. by_cases. Qed.

Lemma SFleb_trans a b c :
  SFleb a b = true -> SFleb b c = true -> SFleb a c = true.
Proof. by_cases. Qed.

End SpecOrder.

Lemma ordered_of_is_nan x : is_nan x = false -> ordered (Prim2SF x).
Proof.
  unfold is_nan. rewrite eqb_spec.
  destruct (Prim2SF x); simpl; intros; try exact I; discriminate.
Qed.

Lemma ltb_irrefl x : (x <? x)%float = false.
Proof. rewrite ltb_spec. apply SFltb_irrefl. Qed.

Lemma ltb_trans x y z :
  (x <? y)%float = true -> (y <? z)%float = true -> (x <? z)%float = true.
Proof. rewrite !ltb_spec. apply SFltb_trans. Qed.

Lemma ltb_false_trans x y z : is_nan y = false ->
  (x <? y)%float = false -> (y <? z)%float = false -> (x <? z)%float = false.
Proof.
  intros Hy. rewrite !ltb_spec.
  apply SFltb_false_trans, ordered_of_is_nan, Hy.
Qed.

Lemma leb_of_not_ltb x y : is_nan x = false -> is_nan y = false ->
  (y <? x)%float = false -> (x <=? y)%float = true.
Proof.
  intros Hx Hy. rewrite ltb_spec, leb_spec.
  apply SFleb_of_not_ltb; apply ordered_of_is_nan; assumption.
Qed.

Lemma leb_trans x y z :
  (x <=? y)%float = true -> (y <=? z)%float = true -> (x <=? z)%float = true.
Proof. rewrite !leb_spec. apply SFleb_trans. Qed.

(** ** Distances are never NaN

    The difference of two finite numbers is no NaN, a square is no NaN and
    not negative, and so is a sum of squares. *)

Section Rounding.

Variables prec emax : Z.

Lemma shr_1_nonneg mrs : (0 <= shr_m mrs)%Z -> (0 <= shr_m (shr_1 mrs))%Z.
Proof.
  destruct mrs as [m r s]; simpl. destruct m as [|[p|p|]|[p|p|]]; simpl; lia.
Qed.

Lemma iter_shr_1_nonneg p :
  forall mrs, (0 <= shr_m mrs)%Z -> (0 <= shr_m (iter_pos shr_1 p mrs))%Z.
Proof.
  induction p as [p IH|p IH|]; intros mrs H; simpl.
  - apply IH, IH, shr_1_nonneg, H.
  - apply IH, IH, H.
  - apply shr_1_nonneg, H.
Qed.

Lemma shr_fexp_nonneg m e l :
  (0 <= m)%Z -> (0 <= shr_m (fst (shr_fexp prec emax m e l)))%Z.
Proof.
  intros H. unfold shr_fexp, shr.
  assert (H0 : (0 <= shr_m (shr_record_of_loc m l))%Z)
    by (destruct l as [|[ | | ]]; exact H).
  destruct (_ - e)%Z; simpl; try assumption.
  apply iter_shr_1_nonneg, H0.
Qed.

Lemma round_nearest_even_nonneg m l :
  (0 <= m)%Z -> (0 <= round_nearest_even m l)%Z.
Proof.
  intros H. destruct l as [|[ | | ]]; simpl; try lia.
  destruct (Z.even m); lia.
Qed.

(** Rounding a non-negative mantissa gives a number of the sign asked for. *)
Lemma binary_round_aux_sign sx mx ex lx :
  (0 <= mx)%Z ->
  match binary_round_aux prec emax sx mx ex lx with
  | S754_zero s | S754_finite s _ _ | S754_infinity s => s = sx
  | S754_nan => False
  end.
Proof.
  intros H. unfold binary_round_aux.
  pose proof (shr_fexp_nonneg mx ex lx H) as H1.
  destruct (shr_fexp prec emax mx ex lx) as [mrs' e']; simpl in H1.
  pose proof (shr_fexp_nonneg
                (round_nearest_even (shr_m mrs') (loc_of_shr_record mrs'))
                e' loc_Exact (round_nearest_even_nonneg _ _ H1)) as H2.
  destruct (shr_fexp prec emax _ e' loc_Exact) as [mrs'' e'']; simpl in H2.
  destruct (shr_m mrs''); [reflexivity | | lia].
  destruct (Z.leb e'' _); reflexivity.
Qed.

Lemma binary_round_sign sx mx ex :
  match binary_round prec emax sx mx ex with
  | S754_zero s | S754_finite s _ _ | S754_infinity s => s = sx
  | S754_nan => False
  end.
Proof.
  unfold binary_round. destruct (shl_align _ _ _) as [mz ez].
  apply binary_round_aux_sign. lia.
Qed.

Lemma SFsub_ordered x y :
  finiteSF x -> finiteSF y -> ordered (SFsub prec emax x y).
Proof.
  destruct x as [sx| | |sx mx ex], y as [sy| | |sy my ey]; simpl;
    try contradiction; intros _ _; try exact I.
  - destruct sx, sy; exact I.
  - unfold binary_normalize.
    destruct (_ - _)%Z as [|m|m]; [exact I| |].
    + pose proof (binary_round_sign false m (Z.min ex ey)) as H.
      destruct (binary_round _ _ _ _ _); try exact I. contradiction.
    + pose proof (binary_round_sign true m (Z.min ex ey)) as H.
      destruct (binary_round _ _ _ _ _); try exact I. contradiction.
Qed.

Lemma SFmul_square_nonneg x : ordered x -> nonnegSF (SFmul prec emax x x).
Proof.
  destruct x as [sx|sx| |sx mx ex]; simpl; try contradiction; intros _.
  - exact I.
  - rewrite xorb_nilpotent. exact I.
  - rewrite xorb_nilpotent.
    pose proof (binary_round_aux_sign false (Z.pos (mx * mx)) (ex + ex)
                                      loc_Exact ltac:(lia)) as H.
    destruct (binary_round_aux _ _ _ _ _ _); simpl; subst; auto.
Qed.

Lemma SFadd_nonneg x y :
  nonnegSF x -> nonnegSF y -> nonnegSF (SFadd prec emax x y).
Proof.
  destruct x as [sx|[|]| |[|] mx ex], y as [sy|[|]| |[|] my ey]; simpl;
    try contradiction; intros _ _; try exact I.
  - destruct sx, sy; exact I.
  - unfold binary_normalize.
    destruct (shl_align mx ex (Z.min ex ey)) as [m1 e1],
             (shl_align my ey (Z.min ex ey)) as [m2 e2]; simpl.
    pose proof (binary_round_sign false (m1 + m2) (Z.min ex ey)) as H.
    destruct (binary_round _ _ _ _ _); simpl; subst; auto.
Qed.

End Rounding.

Lemma nonnegSF_ordered f : nonnegSF f -> ordered f.
Proof. destruct f as [|[|]| |[|]]; simpl; auto. Qed.

Lemma SFeqb_refl f : ordered f -> SFeqb f f = true.
Proof.
  destruct f as [[]|[]| |[] m e]; unfold SFeqb, SFcompare; try reflexivity;
    try contradiction; intros _;
    rewrite Z.compare_refl; change (Pos.compare_cont Eq) with Pos.compare;
    rewrite Pos.compare_refl; reflexivity.
Qed.

Lemma is_nan_of_ordered x : ordered (Prim2SF x) -> is_nan x = false.
Proof.
  intros H. unfold is_nan. rewrite eqb_spec, SFeqb_refl by assumption.
  reflexivity.
Qed.

Lemma finiteSF_of_is_finite x : is_finite x = true -> finiteSF (Prim2SF x).
Proof.
  unfold is_finite, is_nan, is_infinity. rewrite !eqb_spec, abs_spec.
  intros H. apply negb_true_iff, orb_false_elim in H as [H1 H2].
  destruct (Prim2SF x) as [s|s| |s m e]; try exact I.
  - destruct s; vm_compute in H2; discriminate.
  - discriminate.
Qed.

Lemma Distance_step_nonneg (sum x y : float64) :
  nonnegSF (Prim2SF sum) -> is_finite x = true -> is_finite y = true ->
  nonnegSF (Prim2SF (sum + (x - y) * (x - y))%float).
Proof.
  intros Hs Hx Hy. rewrite add_spec, mul_spec, sub_spec.
  apply SFadd_nonneg; [assumption|].
  apply SFmul_square_nonneg, SFsub_ordered; apply finiteSF_of_is_finite;
    assumption.
Qed.

Lemma sumSquares_nonneg (v v2 : Vector) :
  finiteVector v -> finiteVector v2 ->
  forall sum, nonnegSF (Prim2SF sum) ->
    nonnegSF (Prim2SF
      (fold_left
         (fun sum xy => (sum + (fst xy - snd xy) * (fst xy - snd xy))%float)
         (combine v v2) sum)).
Proof.
  intros Hv. revert v2. induction Hv as [|x v Hx Hv IH]; intros v2 Hv2 sum Hs;
    [assumption|].
  destruct Hv2 as [|y v2 Hy Hv2]; [assumption|]. simpl.
  apply IH; [assumption|]. apply Distance_step_nonneg; assumption.
Qed.

(** Finite vectors, none longer than the query, have ordered distances. *)
Lemma FiniteVectors_DistancesOrdered (qEmb : Vector) (embs : list Embedding) :
  FiniteVectors qEmb embs -> DistancesOrdered qEmb embs.
Proof.
  intros [Hq He] e Hin. destruct (He e Hin) as [Hlen Hfin].
  pose proof (Distance_loop_spec (Vec e) [] qEmb 0%float) as HD.
  simpl in HD. fold (Distance (Vec e) qEmb) in HD.
  destruct (Nat.leb_spec (List.length (Vec e)) (List.length qEmb)); [|lia].
  eexists; split; [exact HD|].
  apply is_nan_of_ordered, nonnegSF_ordered, sumSquares_nonneg;
    try assumption.
  vm_compute. exact I.
Qed.

(** With distances that are ordered, [less] is a strict weak ordering. *)
Lemma less_StrictWeakOn (qEmb : Vector) (embs : list Embedding) :
  DistancesOrdered qEmb embs -> StrictWeakOn (less qEmb) embs.
Proof.
  intros HD. unfold StrictWeakOn, less. repeat split.
  - intros a b Ha Hb.
    destruct (HD a Ha) as (da & -> & _), (HD b Hb) as (db & -> & _).
    discriminate.
  - intros a Ha. destruct (HD a Ha) as (da & -> & _).
    rewrite ltb_irrefl. reflexivity.
  - intros a b c Ha Hb Hc.
    destruct (HD a Ha) as (da & -> & _), (HD b Hb) as (db & -> & _),
             (HD c Hc) as (dc & -> & _).
    intros H1 H2. injection H1 as H1. injection H2 as H2.
    rewrite (ltb_trans _ _ _ H1 H2). reflexivity.
  - intros a b c Ha Hb Hc.
    destruct (HD a Ha) as (da & -> & _), (HD b Hb) as (db & -> & Hn),
             (HD c Hc) as (dc & -> & _).
    intros H1 H2. injection H1 as H1. injection H2 as H2.
    rewrite (ltb_false_trans _ _ _ Hn H1 H2). reflexivity.
Qed.

Lemma distLe_trans (qEmb : Vector) (a b c : Embedding) :
  distLe qEmb a b -> distLe qEmb b c -> distLe qEmb a c.
Proof.
  intros (da & db & Ha & Hb & Hab) (db' & dc & Hb' & Hc & Hbc).
  rewrite Hb in Hb'. injection Hb' as <-.
  exists da, dc. repeat split; auto. eapply leb_trans; eassumption.
Qed.

(** ** The insertion sort keeps what the program relies on *)

Lemma HdRel_app_inv {A : Type} (R : A -> A -> Prop) (a : A) (l l' : list A) :
  l <> [] -> HdRel R a (l ++ l') -> HdRel R a l.
Proof. destruct l; [congruence|]. intros _ H; inversion H; constructor; auto. Qed.

Section SortedSnoc.

Variable A : Type.
Variable R : A -> A -> Prop.

Lemma Sorted_snoc (l : list A) (a : A) :
  Sorted R l -> HdRel (fun x y => R y x) a (rev l) -> Sorted R (l ++ [a]).
Proof.
  induction l as [|b l IH]; intros HS HH; simpl.
  - repeat constructor.
  - inversion HS as [|? ? HS' Hb]; subst. simpl in HH.
    destruct l as [|c l].
    + simpl in *. inversion HH; subst. repeat constructor; assumption.
    + constructor.
      * apply IH; [assumption|].
        apply HdRel_app_inv in HH; [assumption|].
        simpl. destruct (rev l); discriminate.
      * inversion Hb; subst. constructor; assumption.
Qed.

End SortedSnoc.

Section SortedRev.

Variable A : Type.
Variable R : A -> A -> Prop.

Lemma Sorted_rev (l : list A) :
  Sorted R l -> Sorted (fun x y => R y x) (rev l).
Proof.
  induction l as [|a l IH]; intros HS; simpl; [constructor|].
  inversion HS as [|? ? HS' Ha]; subst.
  apply (Sorted_snoc _ (fun x y => R y x)); [apply IH, HS'|].
  rewrite rev_involutive. destruct Ha; constructor; assumption.
Qed.

End SortedRev.

Section InsertionSort.

Variable less : Embedding -> Embedding -> option bool.

Lemma insertLeft_perm x prefix :
  Permutation (x :: prefix) (fst (insertLeft less x prefix)).
Proof.
  induction prefix as [|y ys IH]; simpl; [reflexivity|].
  destruct (less x y) as [[|]|]; simpl; try reflexivity.
  destruct (insertLeft less x ys) as [r f]; simpl in *.
  rewrite perm_swap. constructor. exact IH.
Qed.

Lemma insertionSort_from_perm rest :
  forall prefix,
    Permutation (rev prefix ++ rest)
                (fst (insertionSort_from less prefix rest)).
Proof.
  induction rest as [|x rest IH]; intros prefix; simpl.
  - rewrite app_nil_r. reflexivity.
  - pose proof (insertLeft_perm x prefix) as HP.
    destruct (insertLeft less x prefix) as [prefix' [|]]; simpl in *.
    + rewrite <- IH. rewrite <- HP. simpl. rewrite <- app_assoc. reflexivity.
    + rewrite <- HP. simpl. rewrite <- app_assoc. reflexivity.
Qed.

Lemma insertionSort_perm l : Permutation l (fst (insertionSort less l)).
Proof. exact (insertionSort_from_perm l []). Qed.

Variable all : list Embedding.
Hypothesis Hswo : StrictWeakOn less all.

Lemma less_asym a b :
  In a all -> In b all -> less a b = Some true -> less b a = Some false.
Proof.
  destruct Hswo as (Htot & Hirr & Htr & _). intros Ha Hb Hab.
  destruct (less b a) as [[|]|] eqn:E; [|reflexivity|].
  - pose proof (Htr a b a Ha Hb Ha Hab E) as H.
    rewrite (Hirr a Ha) in H. discriminate.
  - exfalso. exact (Htot b a Hb Ha E).
Qed.

Lemma insertLeft_sorted x prefix :
  In x all -> incl prefix all -> Sorted (notLessThan less) prefix ->
  snd (insertLeft less x prefix) = true
  /\ Sorted (notLessThan less) (fst (insertLeft less x prefix))
  /\ forall y, In y all -> (notLessThan less) y x -> HdRel (notLessThan less) y prefix ->
               HdRel (notLessThan less) y (fst (insertLeft less x prefix)).
Proof.
  intros Hx. unfold notLessThan. induction prefix as [|y ys IH]; intros Hin HS; simpl.
  - repeat split; repeat constructor; assumption.
  - assert (Hy : In y all) by (apply Hin; left; reflexivity).
    assert (Hys : incl ys all) by (intros z Hz; apply Hin; right; exact Hz).
    inversion HS as [|? ? HS' Hhd]; subst.
    destruct (less x y) as [[|]|] eqn:E; simpl.
    + destruct (IH Hys HS') as (Hf & Hs & Hh).
      destruct (insertLeft less x ys) as [r f]; simpl in *.
      repeat split; [assumption| |].
      * constructor; [assumption|].
        apply Hh; [assumption | apply less_asym; assumption | assumption].
      * intros z Hz Hzx Hzy. inversion Hzy; subst. constructor; assumption.
    + repeat split.
      * repeat constructor; assumption.
      * intros z Hz Hzx _. constructor; assumption.
    + exfalso. destruct Hswo as (Htot & _). exact (Htot x y Hx Hy E).
Qed.

Lemma insertionSort_from_sorted rest :
  forall prefix,
    incl prefix all -> incl rest all -> Sorted (notLessThan less) prefix ->
    snd (insertionSort_from less prefix rest) = true
    /\ SliceIsSorted less (fst (insertionSort_from less prefix rest)).
Proof.
  induction rest as [|x rest IH]; intros prefix Hp Hr HS; simpl.
  - split; [reflexivity|]. apply (Sorted_rev _ (notLessThan less)), HS.
  - assert (Hx : In x all) by (apply Hr; left; reflexivity).
    destruct (insertLeft_sorted x prefix Hx Hp HS) as (Hf & Hs & _).
    pose proof (insertLeft_perm x prefix) as HP.
    destruct (insertLeft less x prefix) as [prefix' f]; simpl in *; subst f.
    apply IH; [| |assumption].
    + intros z Hz. apply (Permutation_in _ (Permutation_sym HP)) in Hz.
      destruct Hz as [<-|Hz]; [assumption | apply Hp, Hz].
    + intros z Hz; apply Hr; right; exact Hz.
Qed.

End InsertionSort.

Lemma insertionSort_sorted less l :
  StrictWeakOn less l ->
  snd (insertionSort less l) = true
  /\ SliceIsSorted less (fst (insertionSort less l)).
Proof.
  intros H. apply (insertionSort_from_sorted less l H l []).
  - intros z [].
  - apply incl_refl.
  - constructor.
Qed.

Lemma Corpus_SortPermutes : SortPermutes Corpus.world.
Proof. intros less l. apply insertionSort_perm. Qed.

Lemma Corpus_SortSorts : SortSorts Corpus.world.
Proof. intros less l. apply insertionSort_sorted. Qed.

(** ** Retriever *)

Section RetrieverFacts.

Variable w : World.

Lemma retrieve_frame idx qEmb :
  fst (retrieve w idx qEmb)
  = mkIndex (Documents idx) (fst (sortSlice w (less qEmb) (Embeddings idx)))
            (ChunkRefs idx).
Proof.
  unfold retrieve. destruct (sortSlice w _ _) as [sorted [|]]; reflexivity.
Qed.

Lemma runQuery_frame idx query :
  fst (runQuery w idx query) = idx
  \/ exists qEmb, fst (runQuery w idx query) = fst (retrieve w idx qEmb).
Proof.
  unfold runQuery.
  destruct (CreateEmbeddings w [query]) as [[|qEmb data]|]; auto.
  right; exists qEmb.
  destruct (retrieve w idx qEmb) as [idx' [[chunks|e]|]]; try reflexivity.
  destruct (CreateCompletion w _) as [[|text texts]|]; reflexivity.
Qed.

Lemma totalLen_app a b : totalLen (a ++ b) = (totalLen a + totalLen b)%Z.
Proof. induction a as [|c a IH]; simpl; [reflexivity | rewrite IH; lia]. Qed.

Lemma totalLen_nonneg a : (0 <= totalLen a)%Z.
Proof. induction a as [|c a IH]; simpl; unfold len; lia. Qed.

Lemma int_add_exact a b :
  (0 <= a <= maxContextBytes)%Z -> (0 <= b <= maxInt - maxContextBytes)%Z ->
  int_add a b = (a + b)%Z.
Proof.
  unfold int_add, wrap64, maxInt, maxContextBytes. intros Ha Hb.
  rewrite Z.mod_small; lia.
Qed.

Lemma chunkContentOf_fits idx emb c :
  ChunksFit w -> chunkContentOf w idx emb = Return (Ok c) ->
  (0 <= len c <= maxInt - maxContextBytes)%Z.
Proof.
  intros Hfit. unfold chunkContentOf.
  destruct (index (ChunkRefs idx) (ChunkID emb)) as [ref|]; [|discriminate].
  destruct (index (Documents idx) (DocumentID ref)) as [path|]; [|discriminate].
  destruct (readDocument w path) as [e|e|doc] eqn:Hr; try discriminate.
  unfold index.
  destruct (ChunkNumber ref <? 0)%Z; [discriminate|].
  destruct (nth_error (Chunks doc) _) as [c'|] eqn:Hn; [|discriminate].
  intros H; injection H as ->. split; [unfold len; lia|].
  eapply Hfit; [exact Hr | eapply nth_error_In, Hn].
Qed.

(** The chunks the walk returns are those it was given, then the texts of a
    first part of the slice. *)
Lemma packContext_prefix idx embs :
  forall acc size chunks,
    packContext w idx embs acc size = Return (Ok chunks) ->
    exists picked,
      chunks = acc ++ picked
      /\ Forall2 (fun e c => chunkContentOf w idx e = Return (Ok c))
                 (firstn (List.length picked) embs) picked.
Proof.
  induction embs as [|emb rest IH]; intros acc size chunks; simpl.
  - intros H; injection H as <-. exists []. rewrite app_nil_r. auto.
  - destruct (chunkContentOf w idx emb) as [[c|e]|] eqn:Hc; try discriminate.
    destruct (int_add size (len c) >? maxContextBytes)%Z.
    + intros H; injection H as <-. exists []. rewrite app_nil_r. auto.
    + intros H. destruct (IH _ _ _ H) as (picked & -> & HF).
      exists (c :: picked). rewrite <- app_assoc. split; [reflexivity|].
      simpl. constructor; assumption.
Qed.

(** The walk stays within the budget and stops at the first chunk that does
    not fit. *)
Lemma packContext_budget idx embs :
  ChunksFit w ->
  forall acc chunks,
    (totalLen acc <= maxContextBytes)%Z ->
    packContext w idx embs acc (totalLen acc) = Return (Ok chunks) ->
    (totalLen chunks <= maxContextBytes)%Z
    /\ match nth_error embs (List.length chunks - List.length acc) with
       | None => True
       | Some e =>
           exists c, chunkContentOf w idx e = Return (Ok c)
                     /\ (totalLen chunks + len c > maxContextBytes)%Z
       end.
Proof.
  intros Hfit. induction embs as [|emb rest IH]; intros acc chunks Hacc; simpl.
  - intros H; injection H as <-. split; [assumption|].
    destruct (_ - _)%nat; exact I.
  - destruct (chunkContentOf w idx emb) as [[c|e]|] eqn:Hc; try discriminate.
    pose proof (chunkContentOf_fits _ _ _ Hfit Hc) as Hlen.
    pose proof (totalLen_nonneg acc) as Hnn.
    rewrite int_add_exact by lia.
    destruct (Z.gtb_spec (totalLen acc + len c) maxContextBytes) as [Hgt|Hle].
    + intros H; injection H as <-. split; [assumption|].
      rewrite Nat.sub_diag. simpl. exists c. split; [assumption | lia].
    + intros H.
      assert (Ht : totalLen (acc ++ [c]) = (totalLen acc + len c)%Z)
        by (rewrite totalLen_app; simpl; lia).
      rewrite <- Ht in H.
      destruct (packContext_prefix _ _ _ _ _ H) as (picked & Hp & _).
      apply IH in H; [|lia]. destruct H as (Hb & Hstop).
      split; [assumption|].
      rewrite Hp in *. rewrite !length_app in *. simpl in *.
      replace (List.length acc + 1 + List.length picked - List.length acc)%nat
        with (S (List.length picked)) by lia.
      replace (List.length acc + 1 + List.length picked
               - (List.length acc + 1))%nat
        with (List.length picked) in Hstop by lia.
      exact Hstop.
Qed.

Lemma retrieve_Ok idx qEmb idx' chunks :
  retrieve w idx qEmb = (idx', Return (Ok chunks)) ->
  idx' = mkIndex (Documents idx)
                 (fst (sortSlice w (less qEmb) (Embeddings idx)))
                 (ChunkRefs idx)
  /\ snd (sortSlice w (less qEmb) (Embeddings idx)) = true
  /\ packContext w idx' (Embeddings idx') [] 0 = Return (Ok chunks).
Proof.
  unfold retrieve.
  destruct (sortSlice w _ _) as [sorted [|]]; intros H; [|discriminate].
  injection H as <- H. auto.
Qed.

End RetrieverFacts.

Lemma Sorted_impl_In {A : Type} (R R' : A -> A -> Prop) (l : list A) :
  (forall a b, In a l -> In b l -> R a b -> R' a b) ->
  Sorted R l -> Sorted R' l.
Proof.
  induction l as [|a l IH]; intros Himp HS; [constructor|].
  inversion HS as [|? ? HS' Hhd]; subst. constructor.
  - apply IH; [|assumption].
    intros x y Hx Hy. apply Himp; right; assumption.
  - destruct Hhd as [|b l Hab]; constructor.
    apply Himp; [left; reflexivity | right; left; reflexivity | assumption].
Qed.

Lemma StronglySorted_firstn {A : Type} (R : A -> A -> Prop) (l : list A) :
  forall n, StronglySorted R l -> StronglySorted R (firstn n l).
Proof.
  induction l as [|a l IH]; intros [|n] HS; simpl; try constructor.
  - apply IH. inversion HS; assumption.
  - inversion HS as [|? ? _ Hall]; subst.
    rewrite Forall_forall in *. intros x Hx. apply Hall.
    rewrite <- (firstn_skipn n l). apply in_or_app; left; exact Hx.
Qed.

(** C9: running a query leaves the documents and the chunk references of the
    caller's index as they were and permutes its embeddings (also when the
    run fails or panics); every chunkID keeps selecting the same chunk
    reference and every documentID the same path. *)
Theorem C9_ranking_permutes :
  forall (w : World) (idx : Index) (query : string),
    SortPermutes w ->
    let idx' := fst (runQuery w idx query) in
    Documents idx' = Documents idx
    /\ ChunkRefs idx' = ChunkRefs idx
    /\ Permutation (Embeddings idx) (Embeddings idx')
    /\ (forall e, In e (Embeddings idx') ->
                  In e (Embeddings idx)
                  /\ index (ChunkRefs idx') (ChunkID e)
                     = index (ChunkRefs idx) (ChunkID e))
    /\ (forall ref, index (Documents idx') (DocumentID ref)
                    = index (Documents idx) (DocumentID ref)).
Proof.
  intros w idx query Hperm idx'.
  assert (H : Documents idx' = Documents idx
              /\ ChunkRefs idx' = ChunkRefs idx
              /\ Permutation (Embeddings idx) (Embeddings idx')).
  { subst idx'. destruct (runQuery_frame w idx query) as [->|[qEmb ->]].
    - repeat split; reflexivity.
    - rewrite retrieve_frame; simpl. repeat split. apply Hperm. }
  destruct H as (Hd & Hr & Hp). repeat split; try assumption.
  - eapply Permutation_in; [apply Permutation_sym, Hp | assumption].
  - rewrite Hr; reflexivity.
  - intros ref; rewrite Hd; reflexivity.
Qed.

Lemma C9_ranking_permutes_witness :
  SortPermutes Corpus.world
  /\ Permutation (Embeddings Corpus.idx)
                 (Embeddings (fst (runQuery Corpus.world Corpus.idx "q"))).
Proof.
  split; [exact Corpus_SortPermutes|].
  exact (proj1 (proj2 (proj2 (C9_ranking_permutes Corpus.world Corpus.idx "q"
                                Corpus_SortPermutes)))).
Defined.

(** C5: the chunk texts a retrieval returns have at most 4096 bytes in
    total; they are the texts of the first embeddings of the sorted slice, in
    that order, and the embedding after them, if there is one, has a chunk
    that would take the total over 4096; so when the chunk of the closest
    embedding alone has more than 4096 bytes nothing is returned. *)
Theorem C5_context_budget :
  forall (w : World) (idx idx' : Index) (qEmb : Vector) (chunks : list string),
    ChunksFit w ->
    retrieve w idx qEmb = (idx', Return (Ok chunks)) ->
    maxContextBytes = 4096%Z
    /\ (totalLen chunks <= maxContextBytes)%Z
    /\ Forall2 (fun e c => chunkContentOf w idx' e = Return (Ok c))
               (firstn (List.length chunks) (Embeddings idx')) chunks
    /\ match nth_error (Embeddings idx') (List.length chunks) with
       | None => True
       | Some e =>
           exists c, chunkContentOf w idx' e = Return (Ok c)
                     /\ (totalLen chunks + len c > maxContextBytes)%Z
       end
    /\ (forall e rest c,
           Embeddings idx' = e :: rest ->
           chunkContentOf w idx' e = Return (Ok c) ->
           (len c > maxContextBytes)%Z -> chunks = []).
Proof.
  intros w idx idx' qEmb chunks Hfit Hret.
  apply retrieve_Ok in Hret as (_ & _ & Hpack).
  destruct (packContext_prefix _ _ _ _ _ _ Hpack) as (picked & Hp & HF).
  simpl in Hp; subst picked.
  destruct (packContext_budget w idx' (Embeddings idx') Hfit [] chunks)
    as (Hb & Hstop); [simpl; unfold maxContextBytes; lia | exact Hpack |].
  simpl in Hstop. rewrite Nat.sub_0_r in Hstop.
  repeat split; try assumption.
  intros e rest c He Hc Hlen. rewrite He in HF.
  destruct chunks as [|c0 chunks]; [reflexivity|]. simpl in HF.
  inversion HF as [|? ? ? ? Hc0 _]; subst.
  rewrite Hc in Hc0. injection Hc0 as <-.
  simpl in Hb. pose proof (totalLen_nonneg chunks). lia.
Qed.

Lemma Corpus_ChunksFit : ChunksFit Corpus.world.
Proof.
  intros path doc c. simpl. unfold Corpus.files.
  destruct (String.eqb path "A"); [|destruct (String.eqb path "B");
    [|destruct (String.eqb path "broken"); discriminate]];
    intros H; injection H as <-; simpl;
    intros Hin; repeat destruct Hin as [<-|Hin]; try contradiction;
    vm_compute; discriminate.
Qed.

Lemma C5_context_budget_witness :
  ChunksFit Corpus.world
  /\ (totalLen ["no headings here"; ""; "Intro hello world"]
      <= maxContextBytes)%Z.
Proof.
  split; [exact Corpus_ChunksFit|].
  exact (proj1 (proj2 (C5_context_budget Corpus.world Corpus.idx _
                         [0%float; 1%float] _ Corpus_ChunksFit eq_refl))).
Defined.

(** C6: the chunk texts a retrieval returns are those of the first
    embeddings of the sorted slice, in that order, and along these the
    distance to the query does not decrease (given that every embedding has a
    distance to the query and none is NaN); a retrieval on an index without
    embeddings returns an empty context. *)
Theorem C6_ranked_order :
  forall (w : World) (idx : Index) (qEmb : Vector),
    SortPermutes w -> SortSorts w ->
    (Embeddings idx = [] -> snd (retrieve w idx qEmb) = Return (Ok []))
    /\ (DistancesOrdered qEmb (Embeddings idx) ->
        forall idx' chunks,
          retrieve w idx qEmb = (idx', Return (Ok chunks)) ->
          let picked := firstn (List.length chunks) (Embeddings idx') in
          Forall2 (fun e c => chunkContentOf w idx' e = Return (Ok c))
                  picked chunks
          /\ StronglySorted (distLe qEmb) picked).
Proof.
  intros w idx qEmb Hperm Hsorts. split.
  - intros Hnil. unfold retrieve. rewrite Hnil.
    pose proof (Hperm (less qEmb) []) as Hp.
    destruct (Hsorts (less qEmb) []) as (Hf & _).
    { repeat split; intros; contradiction. }
    destruct (sortSlice w (less qEmb) []) as [sorted f]; simpl in *.
    apply Permutation_nil in Hp. subst. reflexivity.
  - intros Hord idx' chunks Hret picked.
    apply retrieve_Ok in Hret as (Hidx & _ & Hpack).
    destruct (packContext_prefix _ _ _ _ _ _ Hpack) as (picked' & Hp & HF).
    simpl in Hp; subst picked'. split; [exact HF|].
    subst picked. apply StronglySorted_firstn.
    assert (Hord' : DistancesOrdered qEmb (Embeddings idx')).
    { intros e He. apply Hord. subst idx'; simpl in He.
      eapply Permutation_in; [apply Permutation_sym, Hperm | exact He]. }
    apply Sorted_StronglySorted.
    { intros a b c. apply distLe_trans. }
    destruct (Hsorts (less qEmb) (Embeddings idx)) as (_ & Hs).
    { apply less_StrictWeakOn, Hord. }
    subst idx'; simpl in *.
    eapply Sorted_impl_In; [|exact Hs].
    intros a b Ha Hb. simpl. unfold less, distLe.
    destruct (Hord' a Ha) as (da & -> & Hna), (Hord' b Hb) as (db & -> & Hnb).
    intros H; injection H as H. exists da, db. repeat split.
    apply leb_of_not_ltb; assumption.
Qed.

Lemma Corpus_DistancesOrdered :
  DistancesOrdered [0%float; 1%float] (Embeddings Corpus.idx).
Proof.
  intros e He. simpl in He.
  repeat destruct He as [<-|He]; try contradiction;
    eexists; split; reflexivity.
Qed.

Lemma C6_ranked_order_witness :
  DistancesOrdered [0%float; 1%float] (Embeddings Corpus.idx)
  /\ StronglySorted (distLe [0%float; 1%float])
       [mkEmbedding [0%float; 1%float] 2; mkEmbedding [1%float; 0%float] 0;
        mkEmbedding [1%float; 0%float] 1].
Proof.
  split; [exact Corpus_DistancesOrdered|].
  exact (proj2 (proj2 (C6_ranked_order Corpus.world Corpus.idx
                         [0%float; 1%float]
                         Corpus_SortPermutes Corpus_SortSorts)
                  Corpus_DistancesOrdered _ _ eq_refl)).
Defined.

(** ** Index store *)

Lemma append_assoc (a b c : string) :
  ((a ++ b) ++ c = a ++ (b ++ c))%string.
Proof. induction a as [|x a IH]; simpl; [reflexivity | rewrite IH; reflexivity]. Qed.

Lemma applyOps_after_Create ops file :
  applyOps (Create :: ops) file = applyOps (Create :: ops) None.
Proof. reflexivity. Qed.

Lemma runIndex_file w paths scanErr file :
  String.eqb (openAIAuthToken w) "" = false ->
  fst (fst (runIndex w paths scanErr file))
  = applyOps (fst (storeIndex w (buildIndex w paths))) file
  /\ snd (runIndex w paths scanErr file)
     = snd (storeIndex w (buildIndex w paths)).
Proof.
  intros Ht. unfold runIndex, buildIndex. rewrite Ht.
  destruct (indexLoop w paths [] [] [] []) as [idx log]; simpl.
  destruct (storeIndex w idx); split; reflexivity.
Qed.

(** C2, as stated: with a valid index file in place, a run whose encode step
    returns an error leaves a file that is no longer the previous one and
    that does not load. *)
Lemma C2_store_not_atomic_counterexample :
  loadIndex Corpus.fullDevice (Some Corpus.previous) = Ok Corpus.idx
  /\ snd (runIndex Corpus.fullDevice ["A"; "B"] None (Some Corpus.previous))
     = Err (New "write index.json.gz: no space left on device")
  /\ fst (fst (runIndex Corpus.fullDevice ["A"; "B"] None
                        (Some Corpus.previous)))
     = Some ""
  /\ loadIndex Corpus.fullDevice (Some "") = Err (New "EOF").
Proof. repeat split. Qed.

(** C2, amended: a previously persisted index file stays intact when the run
    ends before the persist step (no credential) and when [os.Create] on the
    well-known path fails.  The persist step itself is not atomic:
    [os.Create] empties the file before anything is encoded, so once it has
    succeeded the previous content is gone; the file a crash leaves after any
    number of file operations, and the file a run leaves whose encode step
    returns an error, hold bytes of this run only. *)
Theorem C2_store_truncates_first :
  forall (w : World) (paths : list string) (scanErr : option error)
         (file : option string),
    let idx := buildIndex w paths in
    (String.eqb (openAIAuthToken w) "" = true ->
     fst (fst (runIndex w paths scanErr file)) = file)
    /\ (String.eqb (openAIAuthToken w) "" = false ->
        (forall e, osCreate w indexPath = Some e ->
                   fst (fst (runIndex w paths scanErr file)) = file
                   /\ snd (runIndex w paths scanErr file) = Err e)
        /\ (osCreate w indexPath = None ->
            crashedStore w idx 1 file = Some ""
            /\ (forall crash, (1 <= crash)%nat ->
                              crashedStore w idx crash file
                              = crashedStore w idx crash None)
            /\ (forall e, snd (encodeIndex w idx) = Some e ->
                          fst (fst (runIndex w paths scanErr file))
                          = Some (fst (encodeIndex w idx)
                                  ++ closeGzip w idx (Some e))%string
                          /\ snd (runIndex w paths scanErr file) = Err e)
            /\ (snd (encodeIndex w idx) = None ->
                fst (fst (runIndex w paths scanErr file))
                = Some (fst (encodeIndex w idx) ++ fst (flushGzip w idx)
                        ++ closeGzip w idx (snd (flushGzip w idx)))%string))).
Proof.
  intros w paths scanErr file idx. split.
  { intros Ht. unfold runIndex. rewrite Ht. reflexivity. }
  intros Ht.
  destruct (runIndex_file w paths scanErr file Ht) as (-> & ->).
  fold idx. unfold crashedStore, storeIndex. split.
  - intros e ->. split; reflexivity.
  - intros ->.
    destruct (encodeIndex w idx) as [encoded [e|]]; simpl.
    + split; [reflexivity|]. split; [|split].
      * intros [|crash] Hc; [lia | reflexivity].
      * intros e' He'; injection He' as <-. split; reflexivity.
      * discriminate.
    + destruct (flushGzip w idx) as [flushed flushErr]; simpl.
      split; [reflexivity|]. split; [|split].
      * intros [|crash] Hc; [lia | reflexivity].
      * discriminate.
      * intros _. rewrite append_assoc. reflexivity.
Qed.

Lemma C2_store_truncates_first_witness :
  String.eqb (openAIAuthToken Corpus.fullDevice) "" = false
  /\ osCreate Corpus.fullDevice indexPath = None
  /\ crashedStore Corpus.fullDevice Corpus.idx 1 (Some Corpus.previous)
     = Some "".
Proof.
  split; [reflexivity|]. split; [reflexivity|].
  exact (proj1 (proj2 (proj2 (C2_store_truncates_first Corpus.fullDevice
                                ["A"; "B"] None (Some Corpus.previous))
                             eq_refl) eq_refl)).
Defined.

(** A run without any error leaves in the file what the encoder, the flush
    and the close wrote, whatever the file held, and [loadIndex] decodes
    exactly these bytes.  Whether they decode to the index that was stored
    is up to [encoding/json] and [compress/gzip]. *)
Lemma store_then_load (w : World) (idx : Index) (file : option string) :
  osCreate w indexPath = None ->
  snd (encodeIndex w idx) = None ->
  snd (flushGzip w idx) = None ->
  snd (storeIndex w idx) = Ok tt
  /\ loadIndex w (applyOps (fst (storeIndex w idx)) file)
     = decodeIndex w (fst (encodeIndex w idx) ++ fst (flushGzip w idx)
                      ++ closeGzip w idx None)%string.
Proof.
  unfold storeIndex. intros -> He Hf.
  destruct (encodeIndex w idx) as [encoded encodeErr]; simpl in He; subst.
  destruct (flushGzip w idx) as [flushed flushErr]; simpl in Hf; subst.
  simpl. rewrite append_assoc. split; reflexivity.
Qed.

(** ** The scenarios of the specification on the two-document corpus *)

Example scenario_index :
  Corpus.idx
  = mkIndex ["A"; "B"]
            [mkEmbedding [1%float; 0%float] 0;
             mkEmbedding [1%float; 0%float] 1;
             mkEmbedding [0%float; 1%float] 2]
            [mkChunkRef 0 0; mkChunkRef 0 1; mkChunkRef 1 0].
Proof. reflexivity. Qed.

Example scenario_query :
  retrieve Corpus.world Corpus.idx [0%float; 1%float]
  = (mkIndex ["A"; "B"]
             [mkEmbedding [0%float; 1%float] 2;
              mkEmbedding [1%float; 0%float] 0;
              mkEmbedding [1%float; 0%float] 1]
             [mkChunkRef 0 0; mkChunkRef 0 1; mkChunkRef 1 0],
     Return (Ok ["no headings here"; ""; "Intro hello world"])).
Proof. reflexivity. Qed.

Example scenario_script_and_headings :
  Chunks (mkDocument "" "" "a<script>x<h1></script>b<H23 id=1>c<p>d<h2>")
  = ["a b"; "c d"; ""].
Proof. reflexivity. Qed.

(** The walk stops at the chunk of C, which is as close to the query as the
    chunk of B and one byte too long; with C ranked first nothing is
    returned. *)
Example scenario_budget :
  snd (retrieve Corpus.world' (buildIndex Corpus.world' ["B"; "C"])
                [0%float; 1%float])
  = Return (Ok ["no headings here"])
  /\ snd (retrieve Corpus.world' (buildIndex Corpus.world' ["C"; "B"])
                   [0%float; 1%float])
     = Return (Ok []).
Proof. split; vm_compute; reflexivity. Qed.

(** * Further properties of the code *)

(** ** Chunker: what the chunks contain *)

Lemma tag_here_matches s : is_some (match_here htmlTagPat s) = tag_here s.
Proof.
  destruct s as [|a s]; [reflexivity|]. simpl.
  destruct (Ascii.eqb a "<"); [|reflexivity].
  rewrite is_some_option_map. exact (close_tag_matches s).
Qed.

Lemma find_all_no_tag s pos skip :
  any_tag s = false -> find_all_from htmlTagPat s pos skip = [].
Proof.
  revert pos skip; induction s as [|a s IH]; intros pos skip H; [reflexivity|].
  cbn [any_tag] in H. apply orb_false_elim in H as [Hh Ha].
  cbn [find_all_from]. destruct skip as [|k]; [|apply IH, Ha].
  rewrite <- tag_here_matches in Hh.
  destruct (match_here htmlTagPat (String a s)); [discriminate|].
  apply IH, Ha.
Qed.

Lemma replace_tags_no_tag s skip :
  any_tag (replace_from htmlTagPat " " s skip) = false.
Proof.
  revert skip; induction s as [|a s IH]; intros skip; [reflexivity|].
  cbn [replace_from]. destruct skip as [|k]; [|apply IH].
  pose proof (tag_here_matches (String a s)) as Hm.
  destruct (match_here htmlTagPat (String a s)) as [[|n]|] eqn:Em.
  - exfalso. exact (proj1 (match_here_nonempty (String a s)) Em).
  - cbn [append any_tag tag_here]. rewrite IH. reflexivity.
  - cbn [any_tag]. rewrite IH, orb_false_r.
    cbn [tag_here is_some] in *.
    destruct (Ascii.eqb a "<"); [|reflexivity]. simpl in *.
    destruct (contains_gt (replace_from htmlTagPat " " s 0)) eqn:E;
      [|reflexivity].
    apply contains_gt_replace_from in E. congruence.
Qed.

(** X1: no chunk holds a tag: in no chunk is there a [<] with a [>]
    anywhere after it, so the tag pattern matches nowhere in a chunk. *)
Theorem Chunks_no_tag :
  forall (d : Document) (c : string),
    In c (Chunks d) ->
    any_tag c = false /\ FindAllStringIndex htmlTagPat c = [].
Proof.
  intros d c Hin. unfold Chunks in Hin. apply in_map_iff in Hin as (p & <- & _).
  assert (H : any_tag (ReplaceAllString htmlTagPat p " ") = false)
    by apply replace_tags_no_tag.
  split; [exact H | apply find_all_no_tag, H].
Qed.

Lemma Chunks_no_tag_witness :
  In "c d" (Chunks (mkDocument "" "" "a<script>x<h1></script>b<H23 id=1>c<p>d"))
  /\ any_tag "c d" = false.
Proof.
  assert (H : In "c d" (Chunks (mkDocument "" ""
                                  "a<script>x<h1></script>b<H23 id=1>c<p>d")))
    by (right; left; reflexivity).
  split; [exact H|]. exact (proj1 (Chunks_no_tag _ _ H)).
Defined.

Section PiecesFacts.

Variable r : regexp.

Lemma has_byte_append a s t :
  has_byte a (s ++ t) = has_byte a s || has_byte a t.
Proof.
  induction s as [|b s IH]; simpl; [reflexivity|].
  rewrite IH, orb_assoc. reflexivity.
Qed.

(** Replacing matches by a space brings in no byte but the space. *)
Lemma has_byte_replace_from a s skip :
  a <> " "%char -> has_byte a s = false ->
  has_byte a (replace_from r " " s skip) = false.
Proof.
  intros Ha.
  assert (Hsp : has_byte a " " = false).
  { cbn [has_byte]. rewrite orb_false_r. apply Ascii.eqb_neq. congruence. }
  revert skip; induction s as [|b s IH]; intros skip; [auto|].
  cbn [has_byte replace_from].
  intros H. apply orb_false_elim in H as [Hb Hs].
  destruct skip as [|k]; [|apply IH, Hs].
  destruct (match_here r (String b s)) as [[|n]|].
  - cbn [has_byte]. rewrite Hb, IH; auto.
  - rewrite has_byte_append, Hsp, IH; auto.
  - cbn [has_byte]. rewrite Hb, IH; auto.
Qed.

Lemma has_byte_split_from a s skip :
  has_byte a s = false ->
  Forall (fun p => has_byte a p = false) (split_from r s skip).
Proof.
  revert skip; induction s as [|b s IH]; intros skip; simpl.
  - intros _. repeat constructor.
  - intros H. apply orb_false_elim in H as [Hb Hs].
    destruct skip as [|k]; [|apply IH, Hs].
    specialize (IH 0%nat Hs) as IH0.
    destruct (match_here r (String b s)) as [[|n]|];
      try (constructor; [reflexivity | apply IH, Hs]);
      (destruct (split_from r s 0) as [|p ps]; simpl;
       [repeat constructor; simpl; rewrite Hb; reflexivity|];
       inversion IH0; subst; constructor; [simpl; rewrite Hb|]; assumption).
Qed.

Lemma replace_from_length s skip :
  (String.length (replace_from r " " s skip) <= String.length s)%nat.
Proof.
  revert skip; induction s as [|b s IH]; intros skip; simpl; [lia|].
  destruct skip as [|k]; [|specialize (IH k); lia].
  destruct (match_here r (String b s)) as [[|n]|]; simpl;
    try (specialize (IH 0%nat); lia).
  specialize (IH n); lia.
Qed.

Lemma sumLengths_cons_head a l :
  l <> [] -> sumLengths (cons_head a l) = S (sumLengths l).
Proof. destruct l; [congruence | reflexivity]. Qed.

Lemma split_from_sumLengths s skip :
  (sumLengths (split_from r s skip) <= String.length s)%nat.
Proof.
  revert skip; induction s as [|b s IH]; intros skip; simpl; [lia|].
  destruct skip as [|k]; [|specialize (IH k); lia].
  destruct (match_here r (String b s)) as [[|n]|]; simpl;
    try (rewrite sumLengths_cons_head by apply split_from_nonempty;
         specialize (IH 0%nat); lia).
  specialize (IH n); lia.
Qed.

End PiecesFacts.

Lemma ReplaceAllByte_no_newline s :
  has_byte newline (ReplaceAllByte s newline " ") = false.
Proof.
  induction s as [|a s IH]; [reflexivity|]. cbn [ReplaceAllByte has_byte].
  rewrite IH, orb_false_r.
  destruct (Ascii.eqb a newline) eqn:E; [reflexivity | exact E].
Qed.

Lemma ReplaceAllByte_length s old new :
  String.length (ReplaceAllByte s old new) = String.length s.
Proof. induction s as [|a s IH]; simpl; [reflexivity | rewrite IH; reflexivity]. Qed.

Lemma newline_not_space : newline <> " "%char.
Proof. discriminate. Qed.

(** X2: no chunk holds a newline. *)
Theorem Chunks_no_newline :
  forall (d : Document) (c : string),
    In c (Chunks d) -> has_byte newline c = false.
Proof.
  intros d c Hin. unfold Chunks in Hin. apply in_map_iff in Hin as (p & <- & Hp).
  apply has_byte_replace_from; [exact newline_not_space|].
  pose proof (has_byte_split_from htmlHeadersPat newline (markup d) 0) as HF.
  rewrite Forall_forall in HF. apply HF; [|exact Hp].
  apply has_byte_replace_from; [exact newline_not_space|].
  apply ReplaceAllByte_no_newline.
Qed.

Lemma Chunks_no_newline_witness :
  In ("a b ")%string
     (Chunks (mkDocument "" "" ("a" ++ nl ++ "b" ++ nl ++ "<h1>c")))
  /\ has_byte newline "a b " = false.
Proof.
  assert (H : In ("a b ")%string
                 (Chunks (mkDocument "" "" ("a" ++ nl ++ "b" ++ nl ++ "<h1>c"))))
    by (left; reflexivity).
  split; [exact H|]. exact (Chunks_no_newline _ _ H).
Defined.

Lemma sumLengths_map_replace (r : regexp) (l : list string) :
  (sumLengths (map (fun c => ReplaceAllString r c " ") l) <= sumLengths l)%nat.
Proof.
  induction l as [|c l IH]; [simpl; lia|].
  cbn [map]. unfold sumLengths in *. cbn [fold_right].
  pose proof (replace_from_length r c 0) as H.
  fold (ReplaceAllString r c " ") in H. lia.
Qed.

Lemma sumLengths_In (l : list string) (c : string) :
  In c l -> (String.length c <= sumLengths l)%nat.
Proof.
  induction l as [|x l IH]; simpl; [contradiction|].
  intros [->|H]; [lia | specialize (IH H); lia].
Qed.

Lemma totalLen_sumLengths (l : list string) :
  totalLen l = Z.of_nat (sumLengths l).
Proof.
  induction l as [|c l IH]; simpl; [reflexivity|]. rewrite IH. unfold len. lia.
Qed.

(** X3: chunking does not make text: the chunks of a document have, taken
    together, at most as many bytes as its HTML, and so has each of them. *)
Theorem Chunks_total_length :
  forall d : Document,
    (totalLen (Chunks d) <= len (HTML d))%Z
    /\ forall c, In c (Chunks d) -> (len c <= len (HTML d))%Z.
Proof.
  intros d.
  assert (H : (sumLengths (Chunks d) <= String.length (HTML d))%nat).
  { unfold Chunks, Split, markup, ReplaceAllString.
    eapply Nat.le_trans; [apply sumLengths_map_replace|].
    eapply Nat.le_trans; [apply split_from_sumLengths|].
    eapply Nat.le_trans; [apply replace_from_length|].
    rewrite ReplaceAllByte_length. lia. }
  split.
  - rewrite totalLen_sumLengths. unfold len. lia.
  - intros c Hc. apply sumLengths_In in Hc. unfold len. lia.
Qed.

(** Documents of a size Go can hold satisfy the hypothesis of the context
    budget. *)
Lemma ChunksFit_of_HTML (w : World) :
  (forall path doc, readDocument w path = Decoded doc ->
                    (len (HTML doc) <= maxInt - maxContextBytes)%Z) ->
  ChunksFit w.
Proof.
  intros H path doc c Hr Hc.
  pose proof (proj2 (Chunks_total_length doc) c Hc). specialize (H _ _ Hr). lia.
Qed.

Section NoOpeningBracket.

Variable r : regexp.

Lemma match_here_no_lt s :
  has_byte "<" s = false -> match_here (Lit "<" :: r) s = None.
Proof.
  destruct s as [|a s]; [reflexivity|]. cbn [has_byte match_here].
  intros H. apply orb_false_elim in H as [-> _]. reflexivity.
Qed.

Lemma replace_from_no_lt repl s :
  has_byte "<" s = false -> replace_from (Lit "<" :: r) repl s 0 = s.
Proof.
  induction s as [|a s IH]; [reflexivity|]. intros H.
  cbn [replace_from]. rewrite (match_here_no_lt _ H).
  cbn [has_byte] in H. apply orb_false_elim in H as [_ H].
  rewrite (IH H). reflexivity.
Qed.

Lemma split_from_no_lt s :
  has_byte "<" s = false -> split_from (Lit "<" :: r) s 0 = [s].
Proof.
  induction s as [|a s IH]; [reflexivity|]. intros H.
  cbn [split_from]. rewrite (match_here_no_lt _ H).
  cbn [has_byte] in H. apply orb_false_elim in H as [_ H].
  rewrite (IH H). reflexivity.
Qed.

End NoOpeningBracket.

Lemma ReplaceAllByte_no_lt s :
  has_byte "<" s = false ->
  has_byte "<" (ReplaceAllByte s newline " ") = false.
Proof.
  induction s as [|a s IH]; [auto|]. cbn [has_byte ReplaceAllByte].
  intros H. apply orb_false_elim in H as [Ha Hs]. rewrite (IH Hs), orb_false_r.
  destruct (Ascii.eqb a newline); [reflexivity | exact Ha].
Qed.

(** X4: text without any [<] is one chunk, the text itself with its
    newlines turned into spaces. *)
Theorem Chunks_plain_text :
  forall d : Document,
    has_byte "<" (HTML d) = false ->
    Chunks d = [ReplaceAllByte (HTML d) newline " "].
Proof.
  intros d H. apply ReplaceAllByte_no_lt in H.
  unfold Chunks, Split, markup, ReplaceAllString.
  change htmlScriptPat with (Lit "<"%char :: tl htmlScriptPat).
  rewrite (replace_from_no_lt _ _ _ H).
  change htmlHeadersPat with (Lit "<"%char :: tl htmlHeadersPat).
  rewrite (split_from_no_lt _ _ H). cbn [map].
  change htmlTagPat with (Lit "<"%char :: tl htmlTagPat).
  rewrite (replace_from_no_lt _ _ _ H). reflexivity.
Qed.

Lemma Chunks_plain_text_witness :
  has_byte "<" ("a > b" ++ nl ++ "c") = false
  /\ Chunks (mkDocument "" "" ("a > b" ++ nl ++ "c")) = ["a > b c"].
Proof.
  split; [reflexivity|].
  exact (Chunks_plain_text (mkDocument "" "" ("a > b" ++ nl ++ "c")) eq_refl).
Defined.

(** ** Vector / Distance: zero, symmetry, sign *)

Section SubtractionFacts.

Variables prec emax : Z.

Lemma SFsub_diag x : finiteSF x -> SFsub prec emax x x = S754_zero false.
Proof.
  destruct x as [[|]| | |s m e]; simpl; try contradiction; intros _;
    try reflexivity.
  rewrite Z.sub_diag. reflexivity.
Qed.







End SubtractionFacts.

Lemma Prim2SF_zero : Prim2SF 0%float = S754_zero false.
Proof. reflexivity. Qed.

Lemma square_diff_self (x : float64) :
  is_finite x = true -> (0 + (x - x) * (x - x))%float = 0%float.
Proof.
  intros Hx. apply Prim2SF_inj.
  rewrite add_spec, mul_spec, sub_spec. unfold SF64add, SF64mul, SF64sub.
  rewrite (SFsub_diag _ _ _ (finiteSF_of_is_finite x Hx)), Prim2SF_zero.
  reflexivity.
Qed.



Lemma Distance_closed_form (a b : Vector) :
  (List.length a <= List.length b)%nat ->
  Distance a b = Some (sumSquaredDiff a b).
Proof.
  intros H. pose proof (Distance_loop_spec a [] b 0%float) as HD.
  simpl in HD. fold (Distance a b) in HD. rewrite HD.
  destruct (Nat.leb_spec (List.length a) (List.length b)); [reflexivity | lia].
Qed.

(** X5: the distance of a vector of finite components to itself is zero. *)
Theorem Distance_self :
  forall v : Vector, finiteVector v -> Distance v v = Some 0%float.
Proof.
  intros v Hv. rewrite Distance_closed_form by lia. f_equal.
  unfold sumSquaredDiff. induction Hv as [|x v Hx Hv IH]; [reflexivity|].
  cbn [combine fold_left fst snd]. rewrite (square_diff_self x Hx). exact IH.
Qed.

Lemma Distance_self_witness :
  finiteVector [1.5%float; (-2)%float]
  /\ Distance [1.5%float; (-2)%float] [1.5%float; (-2)%float] = Some 0%float.
Proof.
  assert (H : finiteVector [1.5%float; (-2)%float])
    by (repeat constructor).
  split; [exact H | exact (Distance_self _ H)].
Defined.



Lemma leb_zero_nonneg (d : float64) :
  nonnegSF (Prim2SF d) -> (0 <=? d)%float = true.
Proof.
  rewrite leb_spec, Prim2SF_zero.
  destruct (Prim2SF d) as [[|]|[|]| |[|] m e]; simpl; try contradiction;
    reflexivity.
Qed.

(** X7: the distance from a vector of finite components to a vector of
    finite components that is at least as long is a number, not NaN, and
    not negative. *)
Theorem Distance_nonneg :
  forall v q : Vector,
    finiteVector v -> finiteVector q ->
    (List.length v <= List.length q)%nat ->
    exists d, Distance v q = Some d
              /\ is_nan d = false /\ (0 <=? d)%float = true.
Proof.
  intros v q Hv Hq Hlen. exists (sumSquaredDiff v q).
  assert (H : nonnegSF (Prim2SF (sumSquaredDiff v q))).
  { apply sumSquares_nonneg; try assumption. rewrite Prim2SF_zero. exact I. }
  repeat split.
  - apply Distance_closed_form, Hlen.
  - apply is_nan_of_ordered, nonnegSF_ordered, H.
  - apply leb_zero_nonneg, H.
Qed.

Lemma Distance_nonneg_witness :
  finiteVector [1%float; 5%float] /\ finiteVector [2%float; 3%float; 7%float]
  /\ exists d, Distance [1%float; 5%float] [2%float; 3%float; 7%float] = Some d
               /\ is_nan d = false /\ (0 <=? d)%float = true.
Proof.
  assert (H1 : finiteVector [1%float; 5%float]) by (repeat constructor).
  assert (H2 : finiteVector [2%float; 3%float; 7%float])
    by (repeat constructor).
  split; [exact H1|]. split; [exact H2|].
  apply (Distance_nonneg _ _ H1 H2). simpl; lia.
Defined.

(** ** Indexer: what an index holds *)

Lemma appendEmbeddings_spec data :
  forall i ndocs embs refs,
    exists added,
      fst (appendEmbeddings data i ndocs embs refs) = embs ++ added
      /\ map Vec added = data
      /\ snd (appendEmbeddings data i ndocs embs refs)
         = refs ++ map (fun k => mkChunkRef ndocs (i + Z.of_nat k))
                       (seq 0 (List.length data)).
Proof.
  induction data as [|emb data IH]; intros i ndocs embs refs.
  - exists []. simpl. rewrite !app_nil_r. auto.
  - cbn [appendEmbeddings].
    destruct (IH (i + 1)%Z ndocs
                 (embs ++ [mkEmbedding emb (Z.of_nat (List.length refs))])
                 (refs ++ [mkChunkRef ndocs i]))
      as (added & -> & Hv & ->).
    exists (mkEmbedding emb (Z.of_nat (List.length refs)) :: added).
    rewrite <- !app_assoc. cbn [app map Vec List.length seq].
    rewrite Hv, Z.add_0_r, <- seq_shift, map_map.
    repeat split. do 2 f_equal.
    apply map_ext. intros k. f_equal. lia.
Qed.

Lemma indexLoop_contents (w : World) (paths : list string) :
  forall docs embs refs log,
    let idx := fst (indexLoop w paths docs embs refs log) in
    Documents idx
    = docs ++ filter (fun p => is_some (embeddingsOf w p)) paths
    /\ map Vec (Embeddings idx) = map Vec embs ++ List.concat (replies w paths)
    /\ ChunkRefs idx = refs ++ refsFrom (List.length docs) (replies w paths).
Proof.
  induction paths as [|path rest IH]; intros docs embs refs log.
  - simpl. rewrite !app_nil_r. auto.
  - cbn [indexLoop filter replies].
    remember (embeddingsOf w path) as reply eqn:Er. unfold embeddingsOf in Er.
    destruct (readDocument w path) as [e|e|doc]; subst reply; cbn [is_some];
      try apply IH.
    destruct (CreateEmbeddings w (Chunks doc)) as [data|e]; cbn [is_some];
      [|apply IH].
    destruct (appendEmbeddings_spec data 0 (Z.of_nat (List.length docs))
                                    embs refs) as (added & He & Hv & Hr).
    destruct (appendEmbeddings data 0 _ embs refs) as [embs' refs'].
    cbn [fst snd] in He, Hr; subst embs' refs'. cbv beta iota zeta.
    specialize (IH (docs ++ [path]) (embs ++ added)
                   (refs ++ map (fun k => mkChunkRef
                                            (Z.of_nat (List.length docs))
                                            (0 + Z.of_nat k))
                                (seq 0 (List.length data)))
                   (log ++ [Indexed path (Z.of_nat (List.length (Chunks doc)))])).
    cbv zeta in IH. destruct IH as (-> & -> & ->).
    cbn [is_some List.concat refsFrom].
    rewrite map_app, Hv, <- !app_assoc, length_app. cbn [List.length app].
    rewrite Nat.add_1_r. repeat split.
Qed.

(** X8: the index of an indexing run is made of the paths that could be
    opened, decoded and embedded, in the order of the input; of the vectors
    of the provider's replies for these, reply after reply; and of one chunk
    reference per vector, which holds the number of the document among the
    indexed ones and the place of the vector in its reply. *)
Theorem buildIndex_contents :
  forall (w : World) (paths : list string),
    let idx := buildIndex w paths in
    Documents idx = filter (fun p => is_some (embeddingsOf w p)) paths
    /\ map Vec (Embeddings idx) = List.concat (replies w paths)
    /\ ChunkRefs idx = refsFrom 0 (replies w paths).
Proof. intros w paths. exact (indexLoop_contents w paths [] [] [] []). Qed.

(** X9: a document for which the embedding request fails is skipped with
    a warning, like one that cannot be read: the loop goes on with the
    three slices as they were, and the run builds the index of the other
    paths. *)
Theorem buildIndex_skips_unembedded :
  forall (w : World) (before after : list string) (path : string)
         (doc : Document) (e : error),
    readDocument w path = Decoded doc ->
    CreateEmbeddings w (Chunks doc) = Err e ->
    (forall docs embs refs log,
        indexLoop w (path :: after) docs embs refs log
        = indexLoop w after docs embs refs (log ++ [WarnEmbeddings path e]))
    /\ buildIndex w (before ++ path :: after) = buildIndex w (before ++ after).
Proof.
  intros w before after path doc e Hr He.
  assert (Hstep : forall docs embs refs log,
             indexLoop w (path :: after) docs embs refs log
             = indexLoop w after docs embs refs
                         (log ++ [WarnEmbeddings path e])).
  { intros. cbn [indexLoop]. rewrite Hr, He. reflexivity. }
  split; [exact Hstep|].
  unfold buildIndex. rewrite !indexLoop_app.
  destruct (indexLoop w before [] [] [] []) as [i lg].
  rewrite Hstep. apply indexLoop_log_irrelevant.
Qed.

Lemma buildIndex_skips_unembedded_witness :
  readDocument Scenes.rateLimited "A" = Decoded Corpus.docA
  /\ CreateEmbeddings Scenes.rateLimited (Chunks Corpus.docA)
     = Err (New "rate limit")
  /\ Documents (buildIndex Scenes.rateLimited ([] ++ "A" :: ["B"])) = ["B"].
Proof.
  split; [reflexivity|]. split; [reflexivity|].
  rewrite (proj2 (buildIndex_skips_unembedded Scenes.rateLimited [] ["B"] "A"
                    Corpus.docA (New "rate limit") eq_refl eq_refl)).
  reflexivity.
Defined.

Section ResolvableFacts.

Variable w : World.

Lemma index_of_nat {A : Type} (l : list A) (n : nat) :
  index l (Z.of_nat n) = nth_error l n.
Proof.
  unfold index. destruct (Z.ltb_spec (Z.of_nat n) 0); [lia|].
  rewrite Nat2Z.id. reflexivity.
Qed.

Lemma index_app_l {A : Type} (l l' : list A) (i : Z) (a : A) :
  index l i = Some a -> index (l ++ l') i = Some a.
Proof.
  unfold index. destruct (i <? 0)%Z; [discriminate|]. intros H.
  rewrite nth_error_app1; [exact H|].
  apply nth_error_Some. congruence.
Qed.

Lemma Resolvable_nil : Resolvable w [] [] [].
Proof. intros [|j] ref H; discriminate. Qed.

Lemma Resolvable_append docs embs refs path doc data :
  Aligned embs refs -> Resolvable w docs embs refs ->
  readDocument w path = Decoded doc ->
  CreateEmbeddings w (Chunks doc) = Ok data ->
  Resolvable w (docs ++ [path])
    (fst (appendEmbeddings data 0 (Z.of_nat (List.length docs)) embs refs))
    (snd (appendEmbeddings data 0 (Z.of_nat (List.length docs)) embs refs)).
Proof.
  intros [Hlen _] HR Hr He.
  destruct (appendEmbeddings_spec data 0 (Z.of_nat (List.length docs))
                                  embs refs) as (added & -> & Hv & ->).
  intros j ref Hj.
  destruct (Nat.lt_ge_cases j (List.length refs)) as [Hlt|Hge].
  - rewrite nth_error_app1 in Hj by assumption.
    destruct (HR j ref Hj) as (p & d & dt & k & e & Hp & Hd & Hdt & Hk & Hn & Hej).
    exists p, d, dt, k, e. repeat split; try assumption.
    + apply index_app_l, Hp.
    + rewrite nth_error_app1; [exact Hej|]. apply nth_error_Some. congruence.
  - rewrite nth_error_app2 in Hj by assumption.
    set (k := (j - List.length refs)%nat) in *.
    rewrite nth_error_map in Hj.
    rewrite nth_error_seq in Hj.
    destruct (Nat.ltb_spec k (List.length data)) as [Hkl|]; [|discriminate].
    injection Hj as <-. cbn [DocumentID ChunkNumber Nat.add].
    assert (Hka : (k < List.length added)%nat)
      by (rewrite <- (length_map Vec), Hv; exact Hkl).
    destruct (nth_error added k) as [e|] eqn:Hne;
      [|apply nth_error_None in Hne; lia].
    exists path, doc, data, k, e. repeat split; try assumption.
    + rewrite index_of_nat, nth_error_app2, Nat.sub_diag by lia. reflexivity.
    + rewrite <- Hv. rewrite nth_error_map, Hne. reflexivity.
    + rewrite nth_error_app2 by lia. rewrite Hlen. exact Hne.
Qed.

Lemma indexLoop_Resolvable paths :
  forall docs embs refs log,
    Aligned embs refs -> Resolvable w docs embs refs ->
    let idx := fst (indexLoop w paths docs embs refs log) in
    Resolvable w (Documents idx) (Embeddings idx) (ChunkRefs idx).
Proof.
  induction paths as [|path rest IH]; intros docs embs refs log HA HR;
    [exact HR|].
  cbn [indexLoop].
  destruct (readDocument w path) as [e|e|doc] eqn:Hr; try (apply IH; assumption).
  destruct (CreateEmbeddings w (Chunks doc)) as [data|e] eqn:He;
    [|apply IH; assumption].
  pose proof (appendEmbeddings_Aligned data 0 (Z.of_nat (List.length docs))
                                       embs refs HA) as HA'.
  pose proof (Resolvable_append docs embs refs path doc data HA HR Hr He)
    as HR'.
  destruct (appendEmbeddings data 0 _ embs refs) as [embs' refs'].
  apply IH; assumption.
Qed.

Lemma chunkContentOf_frame idx idx' emb :
  Documents idx' = Documents idx -> ChunkRefs idx' = ChunkRefs idx ->
  chunkContentOf w idx' emb = chunkContentOf w idx emb.
Proof. unfold chunkContentOf. intros -> ->. reflexivity. Qed.

Lemma packContext_total idx embs :
  (forall e, In e embs -> exists c, chunkContentOf w idx e = Return (Ok c)) ->
  forall acc size,
    exists chunks, packContext w idx embs acc size = Return (Ok chunks).
Proof.
  induction embs as [|emb rest IH]; intros H acc size; simpl; [eauto|].
  destruct (H emb (or_introl eq_refl)) as (c & ->).
  destruct (_ >? _)%Z; [eauto|].
  apply IH. intros e He. apply H. right; exact He.
Qed.

End ResolvableFacts.

(** Every embedding of a built index leads back to its chunk. *)
Lemma embedding_resolves :
  forall (w : World) (paths : list string) (i : nat) (e : Embedding),
    ProviderAnswersChunks w ->
    nth_error (Embeddings (buildIndex w paths)) i = Some e ->
    exists path doc data k c,
      In path paths
      /\ readDocument w path = Decoded doc
      /\ CreateEmbeddings w (Chunks doc) = Ok data
      /\ nth_error data k = Some (Vec e)
      /\ nth_error (Chunks doc) k = Some c
      /\ chunkContentOf w (buildIndex w paths) e = Return (Ok c).
Proof.
  intros w paths i e Hprov Hi.
  pose proof (indexLoop_Aligned w paths [] [] [] [] Aligned_nil) as [Hlen Hid].
  pose proof (indexLoop_Resolvable w paths [] [] [] [] Aligned_nil
                                   (Resolvable_nil w)) as HR.
  pose proof (proj1 (indexLoop_contents w paths [] [] [] [])) as Hdocs.
  cbv zeta in HR, Hdocs. fold (buildIndex w paths) in Hlen, Hid, HR, Hdocs.
  set (idx := buildIndex w paths) in *.
  destruct (nth_error (ChunkRefs idx) i) as [ref|] eqn:Href.
  2:{ apply nth_error_None in Href.
      assert (i < List.length (Embeddings idx))%nat
        by (apply nth_error_Some; congruence). lia. }
  destruct (HR i ref Href) as (path & doc & data & k & e' & Hp & Hd & Hdt & Hk & Hn & He').
  rewrite Hi in He'. injection He' as <-.
  assert (Hkl : (k < List.length (Chunks doc))%nat).
  { specialize (Hprov _ _ Hdt).
    assert (k < List.length data)%nat by (apply nth_error_Some; congruence).
    lia. }
  destruct (nth_error (Chunks doc) k) as [c|] eqn:Hc;
    [|apply nth_error_None in Hc; lia].
  exists path, doc, data, k, c. repeat split; try assumption.
  - unfold index in Hp. destruct (DocumentID ref <? 0)%Z; [discriminate|].
    apply nth_error_In in Hp. rewrite Hdocs in Hp. simpl in Hp.
    apply filter_In in Hp. tauto.
  - unfold chunkContentOf.
    rewrite (Hid i e Hi), index_of_nat, Href, Hp, Hd, Hk, index_of_nat, Hc.
    reflexivity.
Qed.

(** X10: in the index of an indexing run every embedding leads back to the
    chunk it was made from: its chunkID, the chunk reference and the
    document path resolve, the document is one the run read, and the text
    found is the chunk at the place the embedding's vector has in the
    provider's reply for that document (given a provider that returns no
    more vectors than texts, and documents as they were). *)
Theorem buildIndex_resolves :
  forall (w : World) (paths : list string) (i : nat) (e : Embedding),
    ProviderAnswersChunks w ->
    nth_error (Embeddings (buildIndex w paths)) i = Some e ->
    exists path doc data k c,
      In path paths
      /\ readDocument w path = Decoded doc
      /\ CreateEmbeddings w (Chunks doc) = Ok data
      /\ nth_error data k = Some (Vec e)
      /\ nth_error (Chunks doc) k = Some c
      /\ chunkContentOf w (buildIndex w paths) e = Return (Ok c).
Proof. exact embedding_resolves. Qed.

Lemma Corpus_ProviderAnswersChunks : ProviderAnswersChunks Corpus.world.
Proof.
  intros texts data H. simpl in H. injection H as <-.
  rewrite length_map. lia.
Qed.

Lemma buildIndex_resolves_witness :
  ProviderAnswersChunks Corpus.world
  /\ exists path doc data k c,
      In path ["A"; "B"]
      /\ readDocument Corpus.world path = Decoded doc
      /\ CreateEmbeddings Corpus.world (Chunks doc) = Ok data
      /\ nth_error data k = Some [1%float; 0%float]
      /\ nth_error (Chunks doc) k = Some c
      /\ chunkContentOf Corpus.world Corpus.idx
                        (mkEmbedding [1%float; 0%float] 1) = Return (Ok c).
Proof.
  split; [exact Corpus_ProviderAnswersChunks|].
  exact (buildIndex_resolves Corpus.world ["A"; "B"] 1
           (mkEmbedding [1%float; 0%float] 1)
           Corpus_ProviderAnswersChunks eq_refl).
Defined.

(** X11: a retrieval on the index an indexing run has just built, with the
    documents as they were, neither panics nor fails: it returns a context
    (given a provider that returns no more vectors than texts, and vectors
    of finite components no longer than the query). *)
Theorem fresh_index_retrieval :
  forall (w : World) (paths : list string) (qEmb : Vector),
    ProviderAnswersChunks w -> SortPermutes w -> SortSorts w ->
    FiniteVectors qEmb (Embeddings (buildIndex w paths)) ->
    exists chunks,
      snd (retrieve w (buildIndex w paths) qEmb) = Return (Ok chunks).
Proof.
  intros w paths qEmb Hprov Hperm Hsorts Hfin.
  set (idx := buildIndex w paths) in *.
  unfold retrieve.
  pose proof (Hperm (less qEmb) (Embeddings idx)) as Hp.
  destruct (Hsorts (less qEmb) (Embeddings idx)) as (Hf & _).
  { apply less_StrictWeakOn, FiniteVectors_DistancesOrdered, Hfin. }
  destruct (sortSlice w (less qEmb) (Embeddings idx)) as [sorted finished].
  simpl in Hp, Hf. subst finished. cbn [snd].
  apply packContext_total. intros e He.
  apply (Permutation_in _ (Permutation_sym Hp)) in He.
  apply In_nth_error in He as (i & Hi).
  destruct (embedding_resolves w paths i e Hprov Hi)
    as (path & doc & data & k & c & _ & _ & _ & _ & _ & Hc).
  exists c. rewrite <- Hc. apply chunkContentOf_frame; reflexivity.
Qed.

Lemma Corpus_FiniteVectors :
  FiniteVectors [0%float; 1%float] (Embeddings Corpus.idx).
Proof.
  split; [repeat constructor|].
  intros e He. simpl in He.
  repeat destruct He as [<-|He]; try contradiction;
    (split; [simpl; lia | repeat constructor]).
Qed.

Lemma fresh_index_retrieval_witness :
  ProviderAnswersChunks Corpus.world
  /\ FiniteVectors [0%float; 1%float] (Embeddings Corpus.idx)
  /\ exists chunks,
      snd (retrieve Corpus.world Corpus.idx [0%float; 1%float])
      = Return (Ok chunks).
Proof.
  split; [exact Corpus_ProviderAnswersChunks|].
  split; [exact Corpus_FiniteVectors|].
  exact (fresh_index_retrieval Corpus.world ["A"; "B"] [0%float; 1%float]
           Corpus_ProviderAnswersChunks Corpus_SortPermutes Corpus_SortSorts
           Corpus_FiniteVectors).
Defined.

(** ** Retriever: what the walk reads *)

Section WalkFacts.

Variable w : World.
Variable idx : Index.

Lemma packContext_same_start embs :
  forall embs' acc size chunks,
    packContext w idx embs acc size = Return (Ok chunks) ->
    (List.length chunks - List.length acc < List.length embs)%nat ->
    firstn (S (List.length chunks - List.length acc)) embs
    = firstn (S (List.length chunks - List.length acc)) embs' ->
    packContext w idx embs' acc size = Return (Ok chunks).
Proof.
  induction embs as [|emb rest IH]; intros embs' acc size chunks Hp Hlt Hf;
    [simpl in Hlt; lia|].
  destruct embs' as [|emb' rest']; [discriminate|].
  cbn [firstn] in Hf. injection Hf as <- Hf.
  cbn [packContext] in *.
  destruct (chunkContentOf w idx emb) as [[c|e]|]; try discriminate.
  destruct (_ >? _)%Z; [exact Hp|].
  destruct (packContext_prefix _ _ _ _ _ _ Hp) as (picked & Hc & _).
  assert (Hn : (List.length chunks - List.length acc
                = S (List.length chunks - List.length (acc ++ [c])))%nat).
  { subst chunks. rewrite !length_app. simpl. lia. }
  apply (IH rest' _ _ _ Hp).
  - simpl in Hlt. lia.
  - rewrite Hn in Hf. exact Hf.
Qed.

Lemma packContext_through embs :
  forall rest acc size chunks,
    packContext w idx embs acc size = Return (Ok chunks) ->
    List.length chunks = (List.length acc + List.length embs)%nat ->
    exists size', packContext w idx (embs ++ rest) acc size
                  = packContext w idx rest chunks size'.
Proof.
  induction embs as [|emb embs IH]; intros rest acc size chunks Hp Hl.
  - simpl in Hp. injection Hp as <-. exists size. reflexivity.
  - cbn [packContext app] in *.
    destruct (chunkContentOf w idx emb) as [[c|e]|]; try discriminate.
    destruct (_ >? _)%Z.
    + injection Hp as <-. simpl in Hl. lia.
    + apply (IH rest _ _ _ Hp). rewrite Hl, length_app. simpl. lia.
Qed.

End WalkFacts.

(** X12: the walk does not look past the first chunk that does not fit:
    whatever embeddings follow it in the slice (unreadable documents,
    dangling chunkIDs), the context returned is the same. *)
Theorem packContext_ignores_rest :
  forall (w : World) (idx : Index) (embs embs' : list Embedding)
         (chunks : list string),
    packContext w idx embs [] 0 = Return (Ok chunks) ->
    (List.length chunks < List.length embs)%nat ->
    firstn (S (List.length chunks)) embs = firstn (S (List.length chunks)) embs' ->
    packContext w idx embs' [] 0 = Return (Ok chunks).
Proof.
  intros w idx embs embs' chunks Hp Hlt Hf.
  apply (packContext_same_start w idx embs embs' [] 0%Z chunks Hp);
    simpl; rewrite Nat.sub_0_r; assumption.
Qed.

Lemma packContext_ignores_rest_witness :
  packContext Corpus.world'
    (mkIndex ["B"; "C"] [] [mkChunkRef 0 0; mkChunkRef 1 0])
    [mkEmbedding [] 0; mkEmbedding [] 1; mkEmbedding [] 7] [] 0
  = Return (Ok ["no headings here"])
  /\ packContext Corpus.world'
       (mkIndex ["B"; "C"] [] [mkChunkRef 0 0; mkChunkRef 1 0])
       [mkEmbedding [] 0; mkEmbedding [] 1] [] 0
     = Return (Ok ["no headings here"]).
Proof.
  assert (H : packContext Corpus.world'
                (mkIndex ["B"; "C"] [] [mkChunkRef 0 0; mkChunkRef 1 0])
                [mkEmbedding [] 0; mkEmbedding [] 1] [] 0
              = Return (Ok ["no headings here"]))
    by (vm_compute; reflexivity).
  split; [|exact H].
  apply (packContext_ignores_rest _ _ _ _ _ H); [simpl; lia | reflexivity].
Defined.

(** X13: a chunk the walk reaches must resolve: when the embeddings before
    it all went into the context and its document cannot be opened or
    decoded, the walk returns that error and no context; when its chunkID,
    documentID or chunk number is out of range, the walk panics. *)
Theorem packContext_fails_fast :
  forall (w : World) (idx : Index) (before after : list Embedding)
         (emb : Embedding) (chunks : list string),
    packContext w idx before [] 0 = Return (Ok chunks) ->
    List.length chunks = List.length before ->
    (forall e, chunkContentOf w idx emb = Return (Err e) ->
               packContext w idx (before ++ emb :: after) [] 0
               = Return (Err e))
    /\ (chunkContentOf w idx emb = Panic ->
        packContext w idx (before ++ emb :: after) [] 0 = Panic).
Proof.
  intros w idx before after emb chunks Hp Hl.
  destruct (packContext_through w idx before (emb :: after) [] 0%Z chunks Hp Hl)
    as (size' & ->).
  split; [intros e He | intros He]; cbn [packContext]; rewrite He; reflexivity.
Qed.

Lemma packContext_fails_fast_witness :
  packContext Corpus.world Corpus.idx [mkEmbedding [] 2] [] 0
  = Return (Ok ["no headings here"])
  /\ packContext Corpus.world Corpus.idx
       ([mkEmbedding [] 2] ++ mkEmbedding [] 9 :: [mkEmbedding [] 0]) [] 0
     = Panic.
Proof.
  assert (H : packContext Corpus.world Corpus.idx [mkEmbedding [] 2] [] 0
              = Return (Ok ["no headings here"])) by reflexivity.
  split; [exact H|].
  exact (proj2 (packContext_fails_fast Corpus.world Corpus.idx
                  [mkEmbedding [] 2] [mkEmbedding [] 0] (mkEmbedding [] 9)
                  _ H eq_refl) eq_refl).
Defined.

(** ** Server *)

Section ServerFacts.

Variable w : World.
Variable topic : string.

Lemma SameUpToRanking_refl idx : SameUpToRanking idx idx.
Proof. repeat split; reflexivity. Qed.

Lemma SameUpToRanking_trans a b c :
  SameUpToRanking a b -> SameUpToRanking b c -> SameUpToRanking a c.
Proof.
  intros (Hd & Hr & Hp) (Hd' & Hr' & Hp'). repeat split; try congruence.
  eapply Permutation_trans; eassumption.
Qed.

Lemma runQuery_SameUpToRanking idx query :
  SortPermutes w -> SameUpToRanking idx (fst (runQuery w idx query)).
Proof.
  intros Hperm. destruct (runQuery_frame w idx query) as [->|[qEmb ->]].
  - apply SameUpToRanking_refl.
  - rewrite retrieve_frame. repeat split. apply Hperm.
Qed.

Lemma handle_SameUpToRanking idx r :
  SortPermutes w -> SameUpToRanking idx (fst (fst (handle w topic idx r))).
Proof.
  intros Hperm. unfold handle.
  destruct (negb (String.eqb (URLPath r) "/")); [apply SameUpToRanking_refl|].
  destruct (String.eqb (Method r) "GET"); [apply SameUpToRanking_refl|].
  destruct (String.eqb (Method r) "POST"); [|apply SameUpToRanking_refl].
  destruct (negb (String.eqb _ "")); [|apply SameUpToRanking_refl].
  pose proof (runQuery_SameUpToRanking idx
                (mapGet [("Topic", topic); ("Question", Question r)] "Question")
                Hperm) as H.
  destruct (runQuery w idx _) as [idx' [[answer|e]|]]; exact H.
Qed.

End ServerFacts.

(** X14: whatever requests a server handles, one after the other, its
    index keeps its documents and chunk references, and its embeddings are
    the loaded ones in some order; a handler that panics leaves it so as
    well (given a [sort.Slice] that only permutes). *)
Theorem serve_keeps_index :
  forall (w : World) (topic : string) (idx : Index) (requests : list Request),
    SortPermutes w ->
    SameUpToRanking idx (fst (serve w topic idx requests))
    /\ List.length (snd (serve w topic idx requests)) = List.length requests.
Proof.
  intros w topic idx requests Hperm. revert idx.
  induction requests as [|r rest IH]; intros idx.
  - split; [apply SameUpToRanking_refl | reflexivity].
  - cbn [serve].
    pose proof (handle_SameUpToRanking w topic idx r Hperm) as H.
    destruct (handle w topic idx r) as [[idx' logged] answer]. simpl in H.
    destruct (IH idx') as (H' & Hl).
    destruct (serve w topic idx' rest) as [idx'' answers]. simpl in *.
    split; [eapply SameUpToRanking_trans; eassumption | congruence].
Qed.

Lemma serve_keeps_index_witness :
  SortPermutes Corpus.world
  /\ SameUpToRanking Corpus.idx
       (fst (serve Corpus.world "TOPIC" Corpus.idx
                   [mkRequest "/" "POST" "what?"; mkRequest "/x" "GET" "";
                    mkRequest "/" "POST" "and then?"])).
Proof.
  split; [exact Corpus_SortPermutes|].
  exact (proj1 (serve_keeps_index Corpus.world "TOPIC" Corpus.idx _
                  Corpus_SortPermutes)).
Defined.

(** X15: a page the handler renders carries the topic and the question as
    asked.  It carries an answer or an error note, never both, and only
    for a POST of a question that is not empty: the answer is the text the
    query returned; the error note is the fixed apology, while the error
    itself goes to the log. *)
Theorem handle_page :
  forall (w : World) (topic : string) (idx idx' : Index) (r : Request)
         (logged : option error) (m : Fields),
    handle w topic idx r = (idx', logged, Return (Page m)) ->
    URLPath r = "/"
    /\ mapGet m "Topic" = topic
    /\ mapGet m "Question" = Question r
    /\ mapHas m "Answer" && mapHas m "Error" = false
    /\ (mapHas m "Answer" = true ->
        Method r = "POST" /\ Question r <> ""
        /\ snd (runQuery w idx (Question r))
           = Return (Ok (mapGet m "Answer"))
        /\ logged = None)
    /\ (mapHas m "Error" = true ->
        Method r = "POST" /\ Question r <> ""
        /\ mapGet m "Error" = apology
        /\ exists e, logged = Some e
                     /\ snd (runQuery w idx (Question r)) = Return (Err e))
    /\ (mapHas m "Answer" = false -> mapHas m "Error" = false ->
        idx' = idx /\ logged = None).
Proof.
  intros w topic idx idx' r logged m. unfold handle.
  destruct (String.eqb_spec (URLPath r) "/") as [Hu|Hu]; cbn [negb];
    [|discriminate].
  destruct (String.eqb (Method r) "GET").
  { intros H; injection H as <- <- <-. cbn.
    repeat split; try discriminate; auto. }
  destruct (String.eqb_spec (Method r) "POST") as [Hm|Hm]; [|discriminate].
  cbn [mapGet String.eqb Ascii.eqb Bool.eqb].
  change (mapGet [("Topic", topic); ("Question", Question r)] "Question")
    with (Question r).
  destruct (String.eqb_spec (Question r) "") as [Hq|Hq]; cbn [negb].
  { intros H; injection H as <- <- <-. cbn.
    repeat split; try discriminate; auto. }
  destruct (runQuery w idx (Question r)) as [idx1 [[answer|e]|]] eqn:Hrun;
    intros H; [| |discriminate]; injection H as <- <- <-; cbn;
    repeat split; try discriminate; eauto.
Qed.

Lemma handle_page_witness :
  handle Corpus.world "TOPIC" Corpus.idx (mkRequest "/" "POST" "what?")
  = (fst (runQuery Corpus.world Corpus.idx "what?"), None,
     Return (Page [("Topic", "TOPIC"); ("Question", "what?");
                   ("Answer", "I don't know")]))
  /\ mapGet [("Topic", "TOPIC"); ("Question", "what?");
             ("Answer", "I don't know")] "Topic" = "TOPIC".
Proof.
  assert (H : handle Corpus.world "TOPIC" Corpus.idx
                     (mkRequest "/" "POST" "what?")
              = (fst (runQuery Corpus.world Corpus.idx "what?"), None,
                 Return (Page [("Topic", "TOPIC"); ("Question", "what?");
                               ("Answer", "I don't know")])))
    by reflexivity.
  split; [exact H|].
  exact (proj1 (proj2 (handle_page _ _ _ _ _ _ _ H))).
Defined.

(** ** The earlier version (part_000) *)

Section Part000Facts.

Variable w : World.


Lemma Part000_indexLoop_some paths :
  forall docs embs refs log,
    (exists p, In p paths /\ embeddingsOf w p = None) ->
    exists e log', Part000.indexLoop w paths docs embs refs log = (Err e, log').
Proof.
  induction paths as [|path rest IH]; intros docs embs refs log (p & Hin & Hp);
    [contradiction|].
  cbn [Part000.indexLoop].
  destruct (embeddingsOf w path) as [data|] eqn:Hpath.
  - destruct Hin as [->|Hin]; [congruence|].
    unfold embeddingsOf in Hpath.
    destruct (readDocument w path) as [e|e|doc]; try discriminate.
    destruct (CreateEmbeddings w (Chunks doc)) as [data'|e]; [|discriminate].
    destruct (appendEmbeddings data' 0 _ embs refs) as [embs' refs'].
    apply IH. exists p. split; assumption.
  - unfold embeddingsOf in Hpath.
    destruct (readDocument w path) as [e|e|doc]; eauto.
    destruct (CreateEmbeddings w (Chunks doc)) as [data'|e]; [discriminate|].
    eauto.
Qed.



End Part000Facts.

(** X16: in the earlier version a single document that cannot be opened,
    decoded or embedded ends the indexing run with an error before the
    index file is opened: the file is as it was. *)
Theorem Part000_runIndex_stops :
  forall (w : World) (paths : list string) (scanErr : option error)
         (file : option string) (path : string),
    In path paths -> embeddingsOf w path = None ->
    fst (fst (Part000.runIndex w paths scanErr file)) = file
    /\ exists e, snd (Part000.runIndex w paths scanErr file) = Err e.
Proof.
  intros w paths scanErr file path Hin Hnone. unfold Part000.runIndex.
  destruct (String.eqb (openAIAuthToken w) ""); [simpl; eauto|].
  destruct (Part000_indexLoop_some w paths [] [] [] []
              (ex_intro _ path (conj Hin Hnone))) as (e & log' & ->).
  simpl; eauto.
Qed.

Lemma Part000_runIndex_stops_witness :
  In "broken" ["A"; "broken"; "B"]
  /\ embeddingsOf Corpus.fullDevice "broken" = None
  /\ fst (fst (Part000.runIndex Corpus.fullDevice ["A"; "broken"; "B"] None
                                (Some Corpus.previous)))
     = Some Corpus.previous.
Proof.
  assert (H : In "broken" ["A"; "broken"; "B"]) by (right; left; reflexivity).
  split; [exact H|]. split; [reflexivity|].
  exact (proj1 (Part000_runIndex_stops Corpus.fullDevice _ None
                  (Some Corpus.previous) "broken" H eq_refl)).
Defined.





(** ** Indexer: the log *)




(** X20: a persist step without any error leaves in the file what the
    encoder, the flush and the close wrote, in this order, whatever the file
    held before, and [loadIndex] on that file decodes exactly these
    bytes. *)
Theorem store_load_bytes :
  forall (w : World) (idx : Index) (file : option string),
    osCreate w indexPath = None ->
    snd (encodeIndex w idx) = None ->
    snd (flushGzip w idx) = None ->
    snd (storeIndex w idx) = Ok tt
    /\ applyOps (fst (storeIndex w idx)) file
       = Some (fst (encodeIndex w idx) ++ fst (flushGzip w idx)
               ++ closeGzip w idx None)%string
    /\ loadIndex w (applyOps (fst (storeIndex w idx)) file)
       = decodeIndex w (fst (encodeIndex w idx) ++ fst (flushGzip w idx)
                        ++ closeGzip w idx None)%string.
Proof.
  unfold storeIndex. intros w idx file -> He Hf.
  destruct (encodeIndex w idx) as [encoded encodeErr]; simpl in He; subst.
  destruct (flushGzip w idx) as [flushed flushErr]; simpl in Hf; subst.
  simpl. rewrite append_assoc. repeat split.
Qed.

Lemma store_load_bytes_witness :
  osCreate Corpus.world indexPath = None
  /\ applyOps (fst (storeIndex Corpus.world Corpus.idx))
              (Some Corpus.previous)
     = Some "index".
Proof.
  split; [reflexivity|].
  exact (proj1 (proj2 (store_load_bytes Corpus.world Corpus.idx
                         (Some Corpus.previous) eq_refl eq_refl eq_refl))).
Defined.
